(** * eslint-bot: the diff-position mapping and the commit-to-comment pipeline

    A shallow embedding of [src/server.js].

    Conventions of the embedding:
    - a JavaScript string is a [string]; only the ASCII characters
      [@], [+], [-], the digits and the line feed are ever inspected;
    - a JavaScript Number is a double.  The two line counters only ever
      hold integers or [Infinity]; such a double is the integer in [Z]
      that is its value, with 2^1024 standing for [Infinity], and every
      operation on [fileLineIndex] rounds as the double does
      ([JsNumber.round]).  [diffLineIndex] counts lines of one string,
      which has fewer than 2^53 characters, so it never needs rounding;
    - the [lineMap] object, whose keys are the renderings of such
      doubles, is a [gmap Z Z];
    - a JavaScript value that may be [undefined] is an [option];
    - a call that may throw returns a [result]. *)

From Stdlib Require Import ZArith Ascii String List Lia.
From stdpp Require Import base option list gmap strings fin_maps.

Local Open Scope string_scope.
Local Open Scope list_scope.
Local Open Scope Z_scope.

(** ** Exceptions *)

Inductive exn : Type :=
| TypeError.

Inductive result (A : Type) : Type :=
| Ok (a : A)
| Throw (e : exn).
Arguments Ok {A} a.
Arguments Throw {A} e.

Definition bind {A B : Type} (r : result A) (f : A → result B) : result B :=
  match r with
  | Ok a => f a
  | Throw e => Throw e
  end.

(** ** Numbers *)

Module JsNumber.

(** The double nearest to the integer [n], for [0 <= n], ties going to
    the even significand of 53 bits; the exponent is not bounded here. *)
Definition round53 (n : Z) : Z :=
  if n <? 2 ^ 53 then n
  else
    let e := Z.log2 n - 52 in
    let q := n / 2 ^ e in
    let r := n mod 2 ^ e in
    if (2 ^ (e - 1) <? r) || ((r =? 2 ^ (e - 1)) && Z.odd q)
    then (q + 1) * 2 ^ e
    else q * 2 ^ e.

(** What stands for [Infinity]: the first value the exponent of a double
    cannot reach. *)
Definition infinity : Z := 2 ^ 1024.

(** The Number an integer result is rounded to. *)
Definition round (z : Z) : Z :=
  Z.sgn z * Z.min (round53 (Z.abs z)) infinity.

End JsNumber.

Arguments JsNumber.round : simpl never.
Arguments JsNumber.round53 : simpl never.

(** ** String primitives used by the line mapper *)

Module JsString.

(** [s.split('\n')]: the pieces between line feeds; the empty string
    yields one empty piece. *)
Fixpoint split (sep : ascii) (s : string) : list string :=
  match s with
  | EmptyString => [EmptyString]
  | String c s' =>
      if Ascii.eqb c sep then EmptyString :: split sep s'
      else match split sep s' with
           | piece :: pieces => String c piece :: pieces
           | [] => [String c EmptyString]
           end
  end.

(** [s[0]]: the first character, [undefined] on the empty string. *)
Definition char0 (s : string) : option ascii :=
  match s with
  | EmptyString => None
  | String c _ => Some c
  end.

(** [s.slice(1)] *)
Definition slice1 (s : string) : string :=
  match s with
  | EmptyString => EmptyString
  | String _ s' => s'
  end.

Definition is_digit (c : ascii) : bool :=
  (48 <=? N_of_ascii c)%N && (N_of_ascii c <=? 57)%N.

Definition digit_value (c : ascii) : Z := Z.of_N (N_of_ascii c) - 48.

(** The longest prefix of decimal digits: what [[0-9]+] consumes. *)
Fixpoint take_digits (s : string) : string :=
  match s with
  | EmptyString => EmptyString
  | String c s' => if is_digit c then String c (take_digits s') else EmptyString
  end.

(** The integer a string of decimal digits writes. *)
Definition decimal_value (ds : string) : Z :=
  fold_left (fun acc c => 10 * acc + digit_value c) (list_ascii_of_string ds) 0.

(** The Number a string of decimal digits converts to: the double
    nearest to the integer it writes. *)
Definition to_number (ds : string) : Z := JsNumber.round (decimal_value ds).

(** [line.match(/^@@.*/)] is truthy exactly when the line begins with
    two [@]: [.*] also matches the empty string. *)
Definition match_hunk_header (line : string) : bool :=
  match line with
  | String "@" (String "@" _) => true
  | _ => false
  end.

(** [line.match(/\+[0-9]+/)]: the leftmost [+] that is followed by a
    digit, with the whole run of digits after it; [None] is [null].
    The value is element [0] of the match. *)
Fixpoint match_plus_digits (line : string) : option string :=
  match line with
  | EmptyString => None
  | String c rest =>
      if Ascii.eqb c "+" then
        match take_digits rest with
        | EmptyString => match_plus_digits rest
        | ds => Some (String "+" ds)
        end
      else match_plus_digits rest
  end.

End JsString.

(** ** PatchLineMapper: [getLineMapFromPatchString] *)

(** The two closure variables and the accumulator of the [reduce]. *)
Record LineState : Type := mkLineState {
  diffLineIndex : Z;
  fileLineIndex : Z;
  lineMap : gmap Z Z
}.

Definition initialState : LineState :=
  {| diffLineIndex := 0; fileLineIndex := 0; lineMap := ∅ |}.

(** The body of the reducer, for one line. *)
Definition reducer (st : LineState) (line : string) : result LineState :=
  if JsString.match_hunk_header line then
    match JsString.match_plus_digits line with
    | None => Throw TypeError
    | Some m =>
        Ok {| diffLineIndex := diffLineIndex st;
              fileLineIndex :=
                JsNumber.round (JsString.to_number (JsString.slice1 m) - 1);
              lineMap := lineMap st |}
    end
  else
    let d := diffLineIndex st + 1 in
    if bool_decide (JsString.char0 line = Some "-"%char) then
      Ok {| diffLineIndex := d;
            fileLineIndex := fileLineIndex st;
            lineMap := lineMap st |}
    else
      let f := JsNumber.round (fileLineIndex st + 1) in
      if bool_decide (JsString.char0 line = Some "+"%char) then
        Ok {| diffLineIndex := d; fileLineIndex := f;
              lineMap := <[f := d]> (lineMap st) |}
      else
        Ok {| diffLineIndex := d; fileLineIndex := f; lineMap := lineMap st |}.

(** [lines.reduce(reducer, st)], left to right, stopping at the first throw. *)
Fixpoint reduce (lines : list string) (st : LineState) : result LineState :=
  match lines with
  | [] => Ok st
  | line :: rest => bind (reducer st line) (reduce rest)
  end.

Definition LF : ascii := ascii_of_N 10.

(** [patchString] is [None] when the caller passes [undefined]. *)
Definition getLineMapFromPatchString (patchString : option string)
  : result (gmap Z Z) :=
  match patchString with
  | None => Throw TypeError
  | Some s =>
      bind (reduce (JsString.split LF s) initialState)
           (fun st => Ok (lineMap st))
  end.

(** ** The unified-diff reading of a list of patch lines *)

Definition is_header (ln : string) : bool := JsString.match_hunk_header ln.

Definition is_deletion (ln : string) : bool :=
  bool_decide (JsString.char0 ln = Some "-"%char).

Definition is_addition (ln : string) : bool :=
  bool_decide (JsString.char0 ln = Some "+"%char).

Definition all_digits (s : string) : bool :=
  forallb JsString.is_digit (list_ascii_of_string s).

(** A hunk header in the standard format
    [@@ -<oldStart>,<oldCount> +<newStart>,<newCount> @@], each field
    given by its digits, followed by anything. *)
Definition hunk_header (oldStart oldCount newStart newCount rest : string) : string :=
  "@@ -" +:+ oldStart +:+ "," +:+ oldCount +:+ " +" +:+ newStart +:+ ","
         +:+ newCount +:+ " @@" +:+ rest.

(** The number the reducer reads in a header line. *)
Definition newStart (ln : string) : Z :=
  match JsString.match_plus_digits ln with
  | Some m => JsString.to_number (JsString.slice1 m)
  | None => 0
  end.

Definition count_if (p : string → bool) (lines : list string) : Z :=
  Z.of_nat (length (List.filter p lines)).

(** The diff position reached after [lines]: how many of them are not
    hunk headers. *)
Definition diffPosition_after (lines : list string) : Z :=
  count_if (fun ln => negb (is_header ln)) lines.

(** The hunk that is open after [lines]: its header, if any header was
    seen, and the lines that follow that header. *)
Definition hunk_step (acc : option string * list string) (ln : string)
  : option string * list string :=
  if is_header ln then (Some ln, []) else (fst acc, snd acc ++ [ln]).

Definition open_hunk (lines : list string) : option string * list string :=
  fold_left hunk_step lines (None, []).

(** The integer written after the leftmost [+] of a header line. *)
Definition header_number (ln : string) : Z :=
  match JsString.match_plus_digits ln with
  | Some m => JsString.decimal_value (JsString.slice1 m)
  | None => 0
  end.

Definition fileLine_of (acc : option string * list string) : Z :=
  match fst acc with
  | Some h => header_number h - 1
  | None => 0
  end + count_if (fun ln => negb (is_deletion ln)) (snd acc).

(** The file-line counter of the algorithm, in exact arithmetic: one
    less than the number written in the header of the open hunk, plus the
    lines of that hunk that are not deletions. *)
Definition counted_fileLine (lines : list string) : Z :=
  fileLine_of (open_hunk lines).

(** The numbers of the patch are small enough for the counters to stay
    exact: every header number, plus the number of lines, is at most
    2^53. *)
Definition within_exact_range (lines : list string) : Prop :=
  Z.of_nat (length lines) < 2 ^ 53 ∧
  Forall (fun ln => is_header ln = true →
                    header_number ln + Z.of_nat (length lines) ≤ 2 ^ 53) lines.

(** The value of the reducer's [fileLineIndex] after [lines], with the
    rounding of the code. *)
Definition counter_step (f : Z) (ln : string) : Z :=
  if is_header ln then JsNumber.round (newStart ln - 1)
  else if is_deletion ln then f
  else JsNumber.round (f + 1).

Definition fileLineIndex_after (lines : list string) : Z :=
  fold_left counter_step lines 0.

(** A double of magnitude at least 2^53: 53 significant bits and an
    exponent. *)
Definition is_double (x : Z) : Prop :=
  ∃ q e, 2 ^ 52 ≤ q < 2 ^ 53 ∧ 1 ≤ e ∧ x = q * 2 ^ e.

(** A counter value that the increment leaves exact, or leaves alone. *)
Definition settled (f : Z) : Prop :=
  - 2 ^ 53 < f < 2 ^ 53 ∨ (2 ^ 53 ≤ f ∧ JsNumber.round (f + 1) = f).

(** A line that belongs to neither file: the marker
    [\ No newline at end of file]. *)
Definition is_marker (ln : string) : bool :=
  bool_decide (JsString.char0 ln = Some (ascii_of_N 92)).

(** The line of the post-change file reached after [lines]: one less
    than the number in the header of the open hunk, plus the lines of
    that hunk that the new file holds (neither deletions nor markers). *)
Definition newFile_line (lines : list string) : Z :=
  match fst (open_hunk lines) with
  | Some h => header_number h - 1
  | None => 0
  end + count_if (fun ln => negb (is_deletion ln) && negb (is_marker ln))
                 (snd (open_hunk lines)).

(** A LineMap entry [k ↦ v] comes from an addition line of [lines]:
    right after some line beginning with [+] the file-line counter is
    [k] and the diff position is [v]. *)
Definition from_addition (lines : list string) (k v : Z) : Prop :=
  ∃ (i : nat) (ln : string),
    lines !! i = Some ln ∧ is_addition ln = true ∧
    k = fileLineIndex_after (take (S i) lines) ∧
    v = diffPosition_after (take (S i) lines).

(** Every recorded position lies between 1 and the current counter. *)
Definition recorded_below (st : LineState) : Prop :=
  0 ≤ diffLineIndex st ∧
  ∀ k v, lineMap st !! k = Some v → 1 ≤ v ≤ diffLineIndex st.

Definition injective_map (m : gmap Z Z) : Prop :=
  ∀ k1 k2 v, m !! k1 = Some v → m !! k2 = Some v → k1 = k2.

(** ** Data model of the pipeline *)

Record PullRequestRef : Type := { number : Z }.

Record Payload : Type := { pull_request : option PullRequestRef }.

Record Commit : Type := { sha : string }.

(** [patch] is [None] when GitHub sends no patch for the file. *)
Record ChangedFile : Type := {
  filename : string;
  patch : option string;
  raw_url : string
}.

(** One ESLint message; [ruleId] is [None] when the field is [undefined]. *)
Record Finding : Type := {
  ruleId : option string;
  message : string;
  line : Z
}.

(** The object handed to [github.pullRequests.createComment]; the
    constant [user] and [repo] fields are left out. *)
Record Comment : Type := {
  cm_number : Z;
  cm_sha : string;
  cm_path : string;
  cm_commit_id : string;
  cm_body : string;
  cm_position : option Z
}.

(** What [lintContent] returns. *)
Record LintResult : Type := {
  r_number : Z;
  r_filename : string;
  r_lineMap : gmap Z Z;
  r_messages : option (list Finding);
  r_sha : string
}.

(** ** The HostingClient interface and the event loop *)

Definition Err : Type := string.

(** The two arguments a node-style callback receives: [(error, data)]. *)
Record Reply (A : Type) : Type := {
  error : option Err;
  data : option A
}.
Arguments error {A} _.
Arguments data {A} _.

Record CommitData : Type := { files : list ChangedFile }.
Record ContentData : Type := { content : string }.

(** The requests made to the [github] client, indexed by the type of
    the data of the reply. *)
Inductive Request : Type → Type :=
| pullRequests_getCommits (n : Z) : Request (list Commit)
| repos_getCommit (s : string) : Request CommitData
| repos_getContent (path ref : string) : Request ContentData
| pullRequests_createComment (c : Comment) : Request unit.

(** What the process does that can be observed from outside. *)
Inductive Effect : Type :=
| ConsoleLog (e : Err)
| Api {R : Type} (r : Request R)
| ResponseEnd.

Definition is_api (e : Effect) : bool :=
  match e with
  | Api _ => true
  | _ => false
  end.

(** A piece of synchronous code: it performs effects, issues requests
    whose callbacks run later, and either returns or throws. *)
Inductive Task : Type :=
| Done
| Raise (e : exn)
| Do (a : Effect) (k : Task)
| Fire {R : Type} (r : Request R) (k : Task)
| Call {R : Type} (r : Request R) (callback : Reply R → Task) (k : Task).

(** [t1; t2] *)
Fixpoint seq (t1 t2 : Task) : Task :=
  match t1 with
  | Done => t2
  | Raise e => Raise e
  | Do a k => Do a (seq k t2)
  | Fire r k => Fire r (seq k t2)
  | Call r callback k => Call r callback (seq k t2)
  end.

(** [xs.map(f)], for its effects. *)
Fixpoint for_each {A : Type} (f : A → Task) (xs : list A) : Task :=
  match xs with
  | [] => Done
  | x :: rest => seq (f x) (for_each f rest)
  end.

(** A pull request number that the client accepts and a JSON body
    carries exactly. *)
Definition accepted_number (n : Z) : Prop := 0 < n < 2 ^ 53.

(** The state of the node process: what it has done so far, and the
    exception that ended it, if one escaped a callback. *)
Record Proc : Type := {
  trace : list Effect;
  uncaught : option exn
}.

Definition boot : Proc := {| trace := []; uncaught := None |}.

Definition emit (a : Effect) (p : Proc) : Proc :=
  {| trace := trace p ++ [a]; uncaught := uncaught p |}.

Definition crash (e : exn) (p : Proc) : Proc :=
  {| trace := trace p; uncaught := Some e |}.

(** A reply is delivered only to a process that is still alive. *)
Definition deliver (f : Proc → Proc) (p : Proc) : Proc :=
  match uncaught p with
  | Some _ => p
  | None => f p
  end.

Definition truthy (v : option Z) : bool :=
  match v with
  | Some n => negb (n =? 0)%Z
  | None => false
  end.

Section Pipeline.

(** Whether [filename.match(FILE_FILTER)] is non-null. *)
Variable FILE_FILTER : string → bool.

Variable atob : string → string.

(** [_.get(eslint.executeOnText(content, filename), 'results[0].messages')] *)
Variable eslint_messages : string → string → option (list Finding).

(** How GitHub answers each request. *)
Variable github : ∀ R : Type, Request R → Reply R.

(** Runs the synchronous code [t], then the callbacks of the requests
    it issued, in the order of the requests; the callbacks of the
    requests a callback issues run right after it.  An exception that
    escapes a callback ends the process: nothing in the source catches
    it.  This is the course of a request that the client sends, whose
    callback runs later, when the reply arrives.  A request that the
    client refuses for its parameters (a pull request number that is not
    a positive integer) is answered at once, inside the caller; such
    requests are not covered. *)
Fixpoint run (t : Task) (pending : Proc → Proc) (p : Proc) : Proc :=
  match t with
  | Done => pending p
  | Raise e => crash e p
  | Do a k => run k pending (emit a p)
  | Fire r k => run k pending (emit (Api r) p)
  | Call r callback k =>
      run k
          (fun p' => deliver (run (callback (github _ r)) (fun q => q)) (pending p'))
          (emit (Api r) p)
  end.

Definition log_if (e : option Err) : Task :=
  match e with
  | Some e => Do (ConsoleLog e) Done
  | None => Done
  end.

Definition getCommitsForPullRequest (pr : option PullRequestRef)
    (callback : option (list Commit) → Task) : Task :=
  match pr with
  | None => Raise TypeError
  | Some pr =>
      Call (pullRequests_getCommits (number pr))
           (fun reply => seq (log_if (error reply)) (callback (data reply)))
           Done
  end.

(** The callback binds its second parameter with the pattern
    [{files}], which throws when the argument is [undefined]. *)
Definition getFilesFromCommit (callback : list ChangedFile → string → Task)
    (commit : Commit) : Task :=
  Call (repos_getCommit (sha commit))
       (fun reply =>
          match data reply with
          | None => Raise TypeError
          | Some d => seq (log_if (error reply)) (callback (files d) (sha commit))
          end)
       Done.

Definition filterJavascriptFiles (fs : list ChangedFile) : list ChangedFile :=
  List.filter (fun f => FILE_FILTER (filename f)) fs.

Definition downloadFile
    (callback : Z → string → option string → string → string → Task)
    (pr : option PullRequestRef) (file : ChangedFile) (sha : string) : Task :=
  match pr with
  | None => Raise TypeError
  | Some pr =>
      Call (repos_getContent (filename file) sha)
           (fun reply =>
              match error reply with
              | Some e => Do (ConsoleLog e) Done
              | None =>
                  match data reply with
                  | None => Raise TypeError
                  | Some d =>
                      callback (number pr) (filename file) (patch file)
                               (atob (content d)) sha
                  end
              end)
           Done
  end.

Definition lintContent (number : Z) (filename : string) (patch : option string)
    (content : string) (sha : string) : result LintResult :=
  bind (getLineMapFromPatchString patch)
       (fun m => Ok {| r_number := number; r_filename := filename;
                       r_lineMap := m;
                       r_messages := eslint_messages content filename;
                       r_sha := sha |}).

Definition comment_body (f : Finding) : string :=
  "**" +:+ default "Eslint" (ruleId f) +:+ "**: " +:+ message f.

Definition sendSingleComment (number : Z) (filename : string)
    (lineMap : gmap Z Z) (f : Finding) (sha : string) : Task :=
  let diffLinePosition := lineMap !! line f in
  if truthy diffLinePosition then
    Fire (pullRequests_createComment
            {| cm_number := number; cm_sha := sha; cm_path := filename;
               cm_commit_id := sha; cm_body := comment_body f;
               cm_position := diffLinePosition |})
         Done
  else Done.

Definition sendComments (r : LintResult) : Task :=
  match r_messages r with
  | None => Raise TypeError
  | Some ms =>
      for_each (fun m => sendSingleComment (r_number r) (r_filename r)
                                           (r_lineMap r) m (r_sha r)) ms
  end.

(** [_.compose(sendComments, lintContent)] *)
Definition lintAndSend (number : Z) (filename : string) (patch : option string)
    (content : string) (sha : string) : Task :=
  match lintContent number filename patch content sha with
  | Ok r => sendComments r
  | Throw e => Raise e
  end.

Definition treatPayload (payload : Payload) : Task :=
  getCommitsForPullRequest (pull_request payload) (fun commits =>
    match commits with
    | None => Raise TypeError
    | Some cs =>
        for_each (fun commit =>
          getFilesFromCommit (fun fs sha =>
            for_each (fun file =>
                        downloadFile lintAndSend (pull_request payload) file sha)
                     (filterJavascriptFiles fs))
            commit) cs
    end).

(** The [app.post('/')] handler; [None] is an absent body. *)
Definition handler (payload : option Payload) : Task :=
  seq (match payload with
       | Some p =>
           match pull_request p with
           | Some _ => treatPayload p
           | None => Done
           end
       | None => Done
       end)
      (Do ResponseEnd Done).

(** One webhook delivery, from the request to the last callback. *)
Definition serve (payload : option Payload) (p : Proc) : Proc :=
  run (handler payload) (fun q => q) p.

End Pipeline.

(** ** Concrete patches and worlds *)

Definition unlines (ls : list string) : string :=
  foldr (fun l s => l +:+ String LF s) "" ls.

Definition scenarioA : string :=
  unlines ["@@ -1,2 +1,3 @@"; " a"; "+b"; " c"].

Definition scenarioB : string :=
  unlines ["@@ -1,1 +1,1 @@"; "-old"; "+new"].

(** The lines joined by line feeds, with none after the last one. *)
Fixpoint join_lines (ls : list string) : string :=
  match ls with
  | [] => ""
  | [l] => l
  | l :: rest => l +:+ String LF (join_lines rest)
  end.

(** Both files end without a newline: the old last line [b] becomes
    [c]. The new file is [a], [c]. *)
Definition markerPatch : string :=
  join_lines ["@@ -1,2 +1,2 @@"; " a"; "-b"; "\ No newline at end of file";
              "+c"; "\ No newline at end of file"].

(** A header whose number, 2^53 + 1, is not a double. *)
Definition bigHeader : string :=
  hunk_header "1" "1" "9007199254740993" "1" "".

Definition bigPatch : string := join_lines [bigHeader; "+x"].

(** Two hunks: the second one starts at line 11 of the new file. *)
Definition twoHunks : string :=
  unlines ["@@ -1,2 +1,3 @@"; " a"; "+b"; " c"; "@@ -10,1 +11,2 @@"; " x"; "+y"].

Definition reply_ok {A : Type} (a : A) : Reply A :=
  {| error := None; data := Some a |}.

(** What the client passes when a request fails: [callback(err)]. *)
Definition reply_error {A : Type} (e : Err) : Reply A :=
  {| error := Some e; data := None |}.

Module World.

Definition payload : Payload := {| pull_request := Some {| number := 7 |} |}.

Definition commitA : Commit := {| sha := "aaa" |}.
Definition commitB : Commit := {| sha := "bbb" |}.

Definition fileB : ChangedFile :=
  {| filename := "b.js"; patch := Some scenarioB; raw_url := "" |}.

Definition semi : Finding :=
  {| ruleId := Some "semi"; message := "Missing semicolon."; line := 1 |}.

Definition FILE_FILTER (name : string) : bool :=
  bool_decide (name = "b.js").

Definition atob (s : string) : string := s.

Definition eslint_messages (content filename : string) : option (list Finding) :=
  Some [semi].

(** Every request succeeds; the pull request has the commits [cs],
    and each of them changes [fileB]. *)
Definition healthy (cs : list Commit) : ∀ R : Type, Request R → Reply R :=
  fun R r =>
    match r in Request T return Reply T with
    | pullRequests_getCommits _ => reply_ok cs
    | repos_getCommit _ => reply_ok {| files := [fileB] |}
    | repos_getContent _ _ => reply_ok {| content := "x" |}
    | pullRequests_createComment _ => reply_ok tt
    end.

(** As [healthy], but listing the commits fails. *)
Definition listing_fails (e : Err) : ∀ R : Type, Request R → Reply R :=
  fun R r =>
    match r in Request T return Reply T with
    | pullRequests_getCommits _ => reply_error e
    | other => healthy [] _ other
    end.

(** As [healthy], but fetching the commit [bad] fails. *)
Definition commit_fails (cs : list Commit) (bad : string) (e : Err)
  : ∀ R : Type, Request R → Reply R :=
  fun R r =>
    match r in Request T return Reply T with
    | repos_getCommit s =>
        if bool_decide (s = bad) then reply_error e else healthy cs _ (repos_getCommit s)
    | other => healthy cs _ other
    end.

Definition serve_in (github : ∀ R : Type, Request R → Reply R) : Proc :=
  serve FILE_FILTER atob eslint_messages github (Some payload) boot.

Definition commentOn (c : Commit) : Comment :=
  {| cm_number := 7; cm_sha := sha c; cm_path := "b.js"; cm_commit_id := sha c;
     cm_body := "**semi**: Missing semicolon."; cm_position := Some 2 |}.

End World.

(** A pull request whose only commit renames [b.js]: GitHub lists the
    file without a patch. *)
Module Renamed.

Definition file : ChangedFile :=
  {| filename := "b.js"; patch := None; raw_url := "" |}.

Definition github : ∀ R : Type, Request R → Reply R :=
  fun R r =>
    match r in Request T return Reply T with
    | pullRequests_getCommits _ => reply_ok [World.commitA]
    | repos_getCommit _ => reply_ok {| files := [file] |}
    | repos_getContent _ _ => reply_ok {| content := "x" |}
    | pullRequests_createComment _ => reply_ok tt
    end.

End Renamed.

(** ** Further notions on patches *)

(** A line the reducer cannot read: it begins with [@@] and holds no
    [+] followed by a digit. *)
Definition header_without_number (ln : string) : bool :=
  is_header ln && bool_decide (JsString.match_plus_digits ln = None).

(** A line in the standard hunk-header format. *)
Definition standard_header (ln : string) : Prop :=
  ∃ oldStart oldCount ns newCount rest,
    all_digits oldStart = true ∧ all_digits oldCount = true ∧
    all_digits ns = true ∧ ns ≠ "" ∧
    ln = hunk_header oldStart oldCount ns newCount rest.

(** One hunk with a deletion and two additions. *)
Definition oneHunk : string :=
  unlines ["@@ -1,3 +1,4 @@"; " a"; "-b"; "+c"; "+d"].

(** A hunk that only deletes. *)
Definition deletionOnly : string :=
  unlines ["@@ -1,2 +1,1 @@"; " a"; "-b"].

(** Within one hunk the recorded entries lie below the counters and
    grow together: a larger file line has a larger diff position, and
    the gap between the two never shrinks. *)
Definition ordered_below (st : LineState) : Prop :=
  (∀ k v, lineMap st !! k = Some v →
          k ≤ fileLineIndex st ∧ v ≤ diffLineIndex st ∧
          v - k ≤ diffLineIndex st - fileLineIndex st) ∧
  (∀ k1 v1 k2 v2,
     lineMap st !! k1 = Some v1 → lineMap st !! k2 = Some v2 → k1 < k2 →
     v1 < v2 ∧ v1 - k1 ≤ v2 - k2).

(** ** Reading a run of the pipeline *)

(** The comment [sendSingleComment] builds for a finding. *)
Definition comment_for (number : Z) (filename sha : string) (m : gmap Z Z)
    (f : Finding) : Comment :=
  {| cm_number := number; cm_sha := sha; cm_path := filename;
     cm_commit_id := sha; cm_body := comment_body f;
     cm_position := m !! line f |}.

(** The comment an effect submits, if it is a [createComment] request. *)
Definition comment_of (e : Effect) : option Comment :=
  match e with
  | Api r =>
      match r with
      | pullRequests_createComment c => Some c
      | _ => None
      end
  | _ => None
  end.

(** The path an effect downloads, if it is a [getContent] request. *)
Definition download_of (e : Effect) : option string :=
  match e with
  | Api r =>
      match r with
      | repos_getContent path _ => Some path
      | _ => None
      end
  | _ => None
  end.

Definition is_listing (e : Effect) : bool :=
  match e with
  | Api r =>
      match r with
      | pullRequests_getCommits _ | repos_getCommit _ => true
      | _ => false
      end
  | _ => false
  end.

(** [f] only adds effects that satisfy [P] to the trace. *)
Definition extends (P : Effect → Prop) (f : Proc → Proc) : Prop :=
  ∀ q, ∃ suffix, trace (f q) = trace q ++ suffix ∧ Forall P suffix.

Section Provenance.

Variable FILE_FILTER : string → bool.
Variable atob : string → string.
Variable eslint_messages : string → string → option (list Finding).
Variable github : ∀ R : Type, Request R → Reply R.

(** With the replies of [github], no [throw] is reached in [t] or in
    any callback it leads to. *)
Fixpoint never_raises (t : Task) : Prop :=
  match t with
  | Done => True
  | Raise _ => False
  | Do _ k => never_raises k
  | Fire _ k => never_raises k
  | Call r callback k => never_raises (callback (github _ r)) ∧ never_raises k
  end.

(** With the replies of [github], every effect of [t] and of the
    callbacks it leads to satisfies [P]. *)
Fixpoint emits (P : Effect → Prop) (t : Task) : Prop :=
  match t with
  | Done => True
  | Raise _ => True
  | Do a k => P a ∧ emits P k
  | Fire r k => P (Api r) ∧ emits P k
  | Call r callback k =>
      P (Api r) ∧ emits P (callback (github _ r)) ∧ emits P k
  end.

(** A selected file does not end the process: either its download
    fails, or it yields content, its patch can be mapped and ESLint
    returns messages. *)
Definition file_survives (c : Commit) (f : ChangedFile) : Prop :=
  error (github _ (repos_getContent (filename f) (sha c))) = None →
  ∃ d m ms,
    data (github _ (repos_getContent (filename f) (sha c))) = Some d ∧
    getLineMapFromPatchString (patch f) = Ok m ∧
    eslint_messages (atob (content d)) (filename f) = Some ms.

Definition commit_survives (c : Commit) : Prop :=
  ∃ d, data (github _ (repos_getCommit (sha c))) = Some d ∧
       Forall (file_survives c) (filterJavascriptFiles FILE_FILTER (files d)).

Definition event_survives (pr : PullRequestRef) : Prop :=
  ∃ cs, data (github _ (pullRequests_getCommits (number pr))) = Some cs ∧
        Forall commit_survives cs.

(** Where a comment comes from: a finding of ESLint on the downloaded
    content of [file], on a line that the LineMap of its patch holds. *)
Definition file_provenance (pr : PullRequestRef) (commit : Commit)
    (file : ChangedFile) (c : Comment) : Prop :=
  ∃ d m ms finding,
    error (github _ (repos_getContent (filename file) (sha commit))) = None ∧
    data (github _ (repos_getContent (filename file) (sha commit))) = Some d ∧
    getLineMapFromPatchString (patch file) = Ok m ∧
    eslint_messages (atob (content d)) (filename file) = Some ms ∧
    finding ∈ ms ∧ is_Some (m !! line finding) ∧
    c = comment_for (number pr) (filename file) (sha commit) m finding.

Definition commit_provenance (pr : PullRequestRef) (commit : Commit)
    (c : Comment) : Prop :=
  ∃ d file,
    data (github _ (repos_getCommit (sha commit))) = Some d ∧
    file ∈ files d ∧ FILE_FILTER (filename file) = true ∧
    file_provenance pr commit file c.

Definition comment_provenance (payload : option Payload) (c : Comment) : Prop :=
  ∃ pr cs commit,
    payload ≫= pull_request = Some pr ∧
    data (github _ (pullRequests_getCommits (number pr))) = Some cs ∧
    commit ∈ cs ∧ commit_provenance pr commit c.

End Provenance.

(** * Properties *)

(** ** Rounding to a double *)

Lemma pow2_ge_2 (e : Z) : 1 ≤ e → 2 ≤ 2 ^ e.
Proof. intros. change 2 with (2 ^ 1) at 1. apply Z.pow_le_mono_r; lia. Qed.

Lemma pow2_split (e : Z) : 1 ≤ e → 2 ^ e = 2 * 2 ^ (e - 1).
Proof.
  intros. replace e with (Z.succ (e - 1)) at 1 by lia. apply Z.pow_succ_r. lia.
Qed.

Lemma round53_small (n : Z) : n < 2 ^ 53 → JsNumber.round53 n = n.
Proof. intros H. unfold JsNumber.round53. by rewrite (proj2 (Z.ltb_lt _ _) H). Qed.

Lemma round53_near (q e r : Z) :
  2 ^ 52 ≤ q < 2 ^ 53 → 1 ≤ e → 0 ≤ r < 2 ^ e →
  JsNumber.round53 (q * 2 ^ e + r)
  = if (2 ^ (e - 1) <? r) || ((r =? 2 ^ (e - 1)) && Z.odd q)
    then (q + 1) * 2 ^ e else q * 2 ^ e.
Proof.
  intros Hq He Hr. pose proof (pow2_ge_2 e He) as H2.
  assert (2 ^ (52 + e) = 2 ^ 52 * 2 ^ e) as E52 by (apply Z.pow_add_r; lia).
  assert (2 ^ Z.succ (52 + e) = 2 ^ 53 * 2 ^ e) as E53.
  { replace (Z.succ (52 + e)) with (53 + e) by lia. apply Z.pow_add_r; lia. }
  assert (Z.log2 (q * 2 ^ e + r) = 52 + e) as Hlog.
  { apply Z.log2_unique; [lia|]. rewrite E52, E53. nia. }
  unfold JsNumber.round53.
  assert ((q * 2 ^ e + r <? 2 ^ 53) = false) as -> by (apply Z.ltb_ge; nia).
  rewrite Hlog. replace (52 + e - 52) with e by lia.
  rewrite Z.div_add_l by lia. rewrite Z.div_small by lia.
  rewrite Z.add_comm, Z.mod_add by lia. rewrite Z.mod_small by lia.
  by rewrite Z.add_0_r.
Qed.

Lemma round_nonneg (z : Z) : 0 ≤ z → JsNumber.round z = Z.min (JsNumber.round53 z) JsNumber.infinity.
Proof.
  intros H. unfold JsNumber.round. rewrite Z.abs_eq by done.
  destruct (Z.eq_dec z 0) as [->|]; [reflexivity|].
  rewrite Z.sgn_pos by lia. lia.
Qed.

Lemma round_exact (z : Z) : - 2 ^ 53 < z < 2 ^ 53 → JsNumber.round z = z.
Proof.
  intros H. unfold JsNumber.round. rewrite round53_small by lia.
  assert (2 ^ 53 ≤ JsNumber.infinity) by (apply Z.pow_le_mono_r; lia).
  rewrite Z.min_l by lia. rewrite Z.mul_comm. apply Z.abs_sgn.
Qed.

Lemma round53_double (n : Z) : 2 ^ 53 ≤ n → is_double (JsNumber.round53 n).
Proof.
  intros Hn.
  assert (53 ≤ Z.log2 n) as Hlog.
  { change 53 with (Z.log2 (2 ^ 53)). by apply Z.log2_le_mono. }
  destruct (Z.log2_spec n) as [Hlo Hhi]; [lia|].
  set (e := Z.log2 n - 52). assert (1 ≤ e) as He by lia.
  pose proof (pow2_ge_2 e He) as H2.
  assert (2 ^ Z.log2 n = 2 ^ 52 * 2 ^ e) as E52.
  { replace (Z.log2 n) with (52 + e) by lia. apply Z.pow_add_r; lia. }
  assert (2 ^ Z.succ (Z.log2 n) = 2 ^ 53 * 2 ^ e) as E53.
  { replace (Z.succ (Z.log2 n)) with (53 + e) by lia. apply Z.pow_add_r; lia. }
  rewrite E52 in Hlo. rewrite E53 in Hhi.
  assert (2 ^ 52 ≤ n / 2 ^ e < 2 ^ 53) as Hq.
  { split; [apply Z.div_le_lower_bound | apply Z.div_lt_upper_bound]; lia. }
  unfold JsNumber.round53. rewrite (proj2 (Z.ltb_ge _ _) Hn). fold e.
  destruct (_ || _).
  - destruct (Z.eq_dec (n / 2 ^ e + 1) (2 ^ 53)) as [E|].
    + exists (2 ^ 52), (e + 1). split; [lia|]. split; [lia|].
      rewrite E, Z.pow_add_r by lia. lia.
    + exists (n / 2 ^ e + 1), e. lia.
  - exists (n / 2 ^ e), e. lia.
Qed.

Lemma infinity_double : is_double JsNumber.infinity.
Proof. exists (2 ^ 52), 972. split; [lia|]. split; [lia|]. reflexivity. Qed.

Lemma round_double (n : Z) : 2 ^ 53 ≤ n → is_double (JsNumber.round n) ∧ JsNumber.round n ≤ JsNumber.infinity.
Proof.
  intros Hn. rewrite round_nonneg by lia. split; [|lia].
  destruct (Z.min_spec (JsNumber.round53 n) JsNumber.infinity) as [[_ ->]|[_ ->]];
    auto using round53_double, infinity_double.
Qed.

(** Adding one to a double whose last bit is clear, or whose unit is
    at least four, gives the same double. *)
Lemma round_succ_stalls (q e : Z) :
  2 ^ 52 ≤ q < 2 ^ 53 → 1 ≤ e → q * 2 ^ e ≤ JsNumber.infinity →
  (e = 1 → Z.even q = true) →
  JsNumber.round (q * 2 ^ e + 1) = q * 2 ^ e.
Proof.
  intros Hq He Hinf Heven. pose proof (pow2_ge_2 e He) as H2.
  rewrite round_nonneg by nia. rewrite round53_near by lia.
  destruct (Z.eq_dec e 1) as [->|Hne].
  - rewrite <- Z.negb_even, Heven by done. simpl. lia.
  - assert (2 ≤ 2 ^ (e - 1)) as H3 by (apply pow2_ge_2; lia).
    rewrite (proj2 (Z.ltb_ge _ _)) by lia.
    rewrite (proj2 (Z.eqb_neq _ _)) by lia. simpl. lia.
Qed.

Lemma settled_of_stall (q e : Z) :
  2 ^ 52 ≤ q < 2 ^ 53 → 1 ≤ e → q * 2 ^ e ≤ JsNumber.infinity →
  (e = 1 → Z.even q = true) →
  settled (q * 2 ^ e).
Proof.
  intros Hq He Hinf Heven. right. pose proof (pow2_ge_2 e He).
  split; [nia|]. by apply round_succ_stalls.
Qed.

(** One less than a double lands on a settled value. *)
Lemma double_pred_settled (x : Z) : is_double x → x ≤ JsNumber.infinity → settled (JsNumber.round (x - 1)).
Proof.
  intros (q & e & Hq & He & ->) Hinf. pose proof (pow2_ge_2 e He) as H2.
  rewrite round_nonneg by nia.
  destruct (Z.eq_dec q (2 ^ 52)) as [->|Hq'].
  - destruct (Z.eq_dec e 1) as [->|He'].
    + left. vm_compute. done.
    + assert (2 ^ 52 * 2 ^ e - 1
              = (2 ^ 53 - 1) * 2 ^ (e - 1) + (2 ^ (e - 1) - 1)) as ->.
      { rewrite (pow2_split e) by lia. lia. }
      assert (2 ≤ 2 ^ (e - 1)) as H3 by (apply pow2_ge_2; lia).
      rewrite round53_near by lia.
      assert ((2 ^ 53 - 1 + 1) * 2 ^ (e - 1) = 2 ^ 52 * 2 ^ e) as Eup.
      { rewrite (pow2_split e) by lia. lia. }
      destruct (Z.eq_dec e 2) as [->|He''].
      * vm_compute. right. done.
      * assert (2 ≤ 2 ^ (e - 1 - 1)) as H4 by (apply pow2_ge_2; lia).
        assert (2 ^ (e - 1) = 2 * 2 ^ (e - 1 - 1)) as E5 by (apply pow2_split; lia).
        rewrite (proj2 (Z.ltb_lt _ _)) by lia. simpl. rewrite Eup.
        rewrite Z.min_l by lia. apply settled_of_stall; lia.
  - assert (q * 2 ^ e - 1 = (q - 1) * 2 ^ e + (2 ^ e - 1)) as -> by lia.
    rewrite round53_near by lia.
    replace (q - 1 + 1) with q by lia.
    destruct (Z.eq_dec e 1) as [->|He'].
    + change (2 ^ (1 - 1)) with 1. change (2 ^ 1) with 2 in *.
      change (2 - 1) with 1. simpl (1 <? 1). simpl (1 =? 1). simpl.
      destruct (Z.odd (q - 1)) eqn:Hodd.
      * rewrite Z.min_l by lia. change 2 with (2 ^ 1) at 1.
        apply settled_of_stall; try lia. intros _.
        rewrite <- Z.negb_odd. replace q with (Z.succ (q - 1)) by lia.
        by rewrite Z.odd_succ, <- Z.negb_odd, Hodd.
      * rewrite Z.min_l by lia. change 2 with (2 ^ 1) at 1.
        apply settled_of_stall; try lia. intros _.
        by rewrite <- Z.negb_odd, Hodd.
    + assert (2 ≤ 2 ^ (e - 1)) as H3 by (apply pow2_ge_2; lia).
      assert (2 ^ e = 2 * 2 ^ (e - 1)) as E5 by (apply pow2_split; lia).
      rewrite (proj2 (Z.ltb_lt _ _)) by lia. simpl.
      rewrite Z.min_l by lia. apply settled_of_stall; lia.
Qed.

Lemma settled_header (d : Z) : 0 ≤ d → settled (JsNumber.round (JsNumber.round d - 1)).
Proof.
  intros Hd. destruct (Z.lt_ge_cases d (2 ^ 53)) as [Hlt|Hge].
  - rewrite (round_exact d) by lia. rewrite round_exact by lia. left. lia.
  - destruct (round_double d Hge). by apply double_pred_settled.
Qed.

Lemma settled_step (f : Z) :
  settled f → f ≤ JsNumber.round (f + 1) ≤ f + 1 ∧ settled (JsNumber.round (f + 1)).
Proof.
  intros [Hexact|[Hge Hstall]].
  - destruct (Z.eq_dec (f + 1) (2 ^ 53)) as [E|].
    + rewrite E. change (JsNumber.round (2 ^ 53)) with (2 ^ 53).
      split; [lia|]. right. split; [lia|]. reflexivity.
    + rewrite round_exact by lia. split; [lia|]. left. lia.
  - rewrite Hstall. split; [lia|]. by right.
Qed.

(** ** The reducer, line by line *)

Lemma bind_Ok {A B : Type} (r : result A) (f : A → result B) (b : B) :
  bind r f = Ok b → ∃ a, r = Ok a ∧ f a = Ok b.
Proof. destruct r as [a|e]; simpl; [eauto | discriminate]. Qed.

Lemma reduce_app (l1 l2 : list string) (st : LineState) :
  reduce (l1 ++ l2) st = bind (reduce l1 st) (reduce l2).
Proof.
  revert st. induction l1 as [|ln l1 IH]; intros st; simpl; [done|].
  destruct (reducer st ln) as [st1|e]; simpl; [apply IH | done].
Qed.

Lemma reduce_snoc (pre : list string) (ln : string) (st st' : LineState) :
  reduce (pre ++ [ln]) st = Ok st' →
  ∃ mid, reduce pre st = Ok mid ∧ reducer mid ln = Ok st'.
Proof.
  rewrite reduce_app. intros H. apply bind_Ok in H as (mid & H1 & H2).
  exists mid. split; [done|]. simpl in H2.
  destruct (reducer mid ln); simpl in H2; congruence.
Qed.

Lemma reducer_header (st st' : LineState) (ln : string) :
  is_header ln = true → reducer st ln = Ok st' →
  diffLineIndex st' = diffLineIndex st ∧
  fileLineIndex st' = JsNumber.round (newStart ln - 1) ∧
  lineMap st' = lineMap st.
Proof.
  unfold is_header, reducer, newStart. intros -> H.
  destruct (JsString.match_plus_digits ln); [|discriminate].
  injection H as <-. done.
Qed.

Lemma reducer_line (st : LineState) (ln : string) :
  is_header ln = false →
  reducer st ln =
    Ok {| diffLineIndex := diffLineIndex st + 1;
          fileLineIndex :=
            if is_deletion ln then fileLineIndex st
            else JsNumber.round (fileLineIndex st + 1);
          lineMap :=
            if is_addition ln
            then <[JsNumber.round (fileLineIndex st + 1) := diffLineIndex st + 1]>
                   (lineMap st)
            else lineMap st |}.
Proof.
  unfold is_header, is_deletion, is_addition, reducer. intros ->.
  destruct ln as [|c ln]; simpl; [done|].
  repeat case_bool_decide; try done. congruence.
Qed.

Lemma addition_not_header (ln : string) : is_addition ln = true → is_header ln = false.
Proof.
  unfold is_addition, is_header. intros H%bool_decide_eq_true.
  destruct ln as [|c ln]; simpl in *; [done|]. by injection H as ->.
Qed.

Lemma addition_not_deletion (ln : string) :
  is_addition ln = true → is_deletion ln = false.
Proof.
  unfold is_addition, is_deletion. intros H%bool_decide_eq_true.
  apply bool_decide_eq_false. rewrite H. discriminate.
Qed.

(** ** The counters after a run *)

Lemma count_if_snoc (p : string → bool) (lines : list string) (ln : string) :
  count_if p (lines ++ [ln]) = count_if p lines + (if p ln then 1 else 0).
Proof.
  unfold count_if. rewrite List.filter_app, length_app. simpl.
  destruct (p ln); simpl; lia.
Qed.

Lemma open_hunk_snoc (lines : list string) (ln : string) :
  open_hunk (lines ++ [ln]) = hunk_step (open_hunk lines) ln.
Proof. unfold open_hunk. by rewrite fold_left_app. Qed.

Lemma fileLineIndex_after_snoc (lines : list string) (ln : string) :
  fileLineIndex_after (lines ++ [ln]) = counter_step (fileLineIndex_after lines) ln.
Proof. unfold fileLineIndex_after. by rewrite fold_left_app. Qed.

Lemma counters_snoc (pre : list string) (ln : string) (st st' : LineState) :
  diffLineIndex st = diffPosition_after pre →
  fileLineIndex st = fileLineIndex_after pre →
  reducer st ln = Ok st' →
  diffLineIndex st' = diffPosition_after (pre ++ [ln]) ∧
  fileLineIndex st' = fileLineIndex_after (pre ++ [ln]).
Proof.
  intros Hd Hf Hstep. unfold diffPosition_after in *.
  rewrite count_if_snoc, fileLineIndex_after_snoc. unfold counter_step.
  destruct (is_header ln) eqn:Hh.
  - apply reducer_header in Hstep as (-> & -> & _); [|done].
    simpl. split; lia.
  - rewrite reducer_line in Hstep by done. injection Hstep as <-. simpl.
    split; [lia|]. rewrite Hf. by destruct (is_deletion ln).
Qed.

Lemma counters_reduce (lines : list string) (st : LineState) :
  reduce lines initialState = Ok st →
  diffLineIndex st = diffPosition_after lines ∧
  fileLineIndex st = fileLineIndex_after lines.
Proof.
  revert st. induction lines as [|ln pre IH] using rev_ind; intros st H.
  - injection H as <-. done.
  - apply reduce_snoc in H as (mid & Hpre & Hstep).
    destruct (IH _ Hpre) as [Hd Hf]. eauto using counters_snoc.
Qed.

(** ** Reading a well-formed hunk header *)

Lemma digit_not_plus (c : ascii) :
  JsString.is_digit c = true → Ascii.eqb c "+" = false.
Proof. destruct (Ascii.eqb_spec c "+") as [->|]; [discriminate | done]. Qed.

Lemma match_plus_digits_skip (pre rest : string) :
  forallb (fun c => negb (Ascii.eqb c "+")) (list_ascii_of_string pre) = true →
  JsString.match_plus_digits (pre +:+ rest) = JsString.match_plus_digits rest.
Proof.
  induction pre as [|c pre IH]; simpl; [done|].
  intros [Hc Hpre]%andb_prop. apply negb_true_iff in Hc. rewrite Hc. auto.
Qed.

Lemma match_plus_digits_skip_digits (ds rest : string) :
  all_digits ds = true →
  JsString.match_plus_digits (ds +:+ rest) = JsString.match_plus_digits rest.
Proof.
  intros H. apply match_plus_digits_skip. revert H. unfold all_digits.
  induction ds as [|c ds IH]; simpl; [done|].
  intros [Hc Hds]%andb_prop. rewrite (digit_not_plus _ Hc). simpl. auto.
Qed.

Lemma take_digits_app (ds rest : string) :
  all_digits ds = true →
  JsString.take_digits (ds +:+ rest) = ds +:+ JsString.take_digits rest.
Proof.
  unfold all_digits. induction ds as [|c ds IH]; simpl; [done|].
  intros [Hc Hds]%andb_prop. by rewrite Hc, IH.
Qed.

Lemma append_cons (c : ascii) (s t : string) :
  String c s +:+ t = String c (s +:+ t).
Proof. reflexivity. Qed.

Lemma append_nil_l (t : string) : "" +:+ t = t.
Proof. reflexivity. Qed.

Lemma append_empty (s : string) : s +:+ "" = s.
Proof. induction s as [|c s IH]; [done | by rewrite append_cons, IH]. Qed.

Lemma hunk_header_is_header (oldStart oldCount ns newCount rest : string) :
  is_header (hunk_header oldStart oldCount ns newCount rest) = true.
Proof. reflexivity. Qed.

Lemma header_number_hunk_header (oldStart oldCount ns newCount rest : string) :
  all_digits oldStart = true → all_digits oldCount = true →
  all_digits ns = true → ns ≠ "" →
  header_number (hunk_header oldStart oldCount ns newCount rest)
  = JsString.decimal_value ns.
Proof.
  intros Hos Hoc Hns Hne. unfold header_number, hunk_header.
  rewrite (match_plus_digits_skip "@@ -") by reflexivity.
  rewrite match_plus_digits_skip_digits by done.
  rewrite (match_plus_digits_skip ",") by reflexivity.
  rewrite match_plus_digits_skip_digits by done.
  rewrite !append_cons, !append_nil_l. simpl.
  rewrite take_digits_app by done. simpl. rewrite append_empty.
  destruct ns; [done|]. reflexivity.
Qed.

Lemma take_digits_all_digits (s : string) :
  all_digits (JsString.take_digits s) = true.
Proof.
  unfold all_digits. induction s as [|c s IH]; simpl; [done|].
  destruct (JsString.is_digit c) eqn:Hc; simpl; [by rewrite Hc | done].
Qed.

Lemma match_plus_digits_Some (ln m : string) :
  JsString.match_plus_digits ln = Some m → all_digits (JsString.slice1 m) = true.
Proof.
  induction ln as [|c ln IH]; simpl; [done|].
  destruct (Ascii.eqb c "+"); [|done].
  destruct (JsString.take_digits ln) as [|d ds] eqn:Hd; [done|].
  intros [= <-]. simpl. rewrite <- Hd. apply take_digits_all_digits.
Qed.

Lemma digit_value_nonneg (c : ascii) :
  JsString.is_digit c = true → 0 ≤ JsString.digit_value c.
Proof.
  unfold JsString.is_digit, JsString.digit_value.
  intros [H _]%andb_prop. apply N.leb_le in H. lia.
Qed.

Lemma decimal_value_nonneg (ds : string) :
  all_digits ds = true → 0 ≤ JsString.decimal_value ds.
Proof.
  unfold all_digits, JsString.decimal_value.
  assert (∀ l acc, 0 ≤ acc → forallb JsString.is_digit l = true →
            0 ≤ fold_left (fun a c => 10 * a + JsString.digit_value c) l acc) as H.
  { induction l as [|c l IH]; intros acc Hacc Hl; simpl in *; [done|].
    apply andb_prop in Hl as [Hc Hl]. apply IH; [|done].
    pose proof (digit_value_nonneg c Hc). lia. }
  by apply H.
Qed.

Lemma header_number_nonneg (ln : string) : 0 ≤ header_number ln.
Proof.
  unfold header_number.
  destruct (JsString.match_plus_digits ln) as [m|] eqn:Hm; [|done].
  eauto using decimal_value_nonneg, match_plus_digits_Some.
Qed.

Lemma newStart_round (ln : string) :
  newStart ln = JsNumber.round (header_number ln).
Proof.
  unfold newStart, header_number.
  by destruct (JsString.match_plus_digits ln).
Qed.

(** ** The counter in exact arithmetic *)

Lemma counted_exact (N : Z) (lines : list string) :
  N < 2 ^ 53 → Z.of_nat (length lines) ≤ N →
  Forall (fun ln => is_header ln = true → header_number ln + N ≤ 2 ^ 53) lines →
  fileLineIndex_after lines = counted_fileLine lines ∧
  -1 ≤ counted_fileLine lines ∧
  counted_fileLine lines + (N - Z.of_nat (length lines)) < 2 ^ 53.
Proof.
  intros HN. induction lines as [|ln pre IH] using rev_ind; intros Hlen Hall.
  - unfold fileLineIndex_after, counted_fileLine, fileLine_of, count_if.
    simpl. lia.
  - rewrite length_app in Hlen. simpl in Hlen.
    apply Forall_app in Hall as [Hpre Hln]. apply Forall_inv in Hln.
    destruct IH as (Hf & Hlo & Hhi); [lia | done |].
    rewrite fileLineIndex_after_snoc, Hf. unfold counted_fileLine in *.
    rewrite open_hunk_snoc, length_app. simpl.
    unfold counter_step, hunk_step. destruct (is_header ln) eqn:Hh.
    + specialize (Hln eq_refl). pose proof (header_number_nonneg ln).
      rewrite newStart_round. rewrite (round_exact (header_number ln)) by lia.
      rewrite round_exact by lia.
      unfold fileLine_of, count_if. simpl. lia.
    + unfold fileLine_of in *. simpl. rewrite count_if_snoc.
      destruct (is_deletion ln); simpl; [lia|].
      rewrite round_exact by lia. lia.
Qed.

(** ** What the map holds *)

Lemma recorded_below_reducer (st st' : LineState) (ln : string) :
  recorded_below st → injective_map (lineMap st) → reducer st ln = Ok st' →
  recorded_below st' ∧ injective_map (lineMap st').
Proof.
  intros [Hd Hv] Hinj Hstep. destruct (is_header ln) eqn:Hh.
  - apply reducer_header in Hstep as (Hd' & _ & Hm); [|done].
    unfold recorded_below. rewrite Hd', Hm. done.
  - rewrite reducer_line in Hstep by done. injection Hstep as <-.
    unfold recorded_below. simpl. destruct (is_addition ln).
    + split; [split; [lia|] |].
      * intros k v [[_ <-]|[_ H]]%lookup_insert_Some; [lia|].
        apply Hv in H. lia.
      * intros k1 k2 v H1 H2.
        apply lookup_insert_Some in H1 as [[E1 V1]|[_ H1]];
          apply lookup_insert_Some in H2 as [[E2 V2]|[_ H2]].
        -- congruence.
        -- apply Hv in H2. lia.
        -- apply Hv in H1. lia.
        -- eauto.
    + split; [split; [lia|] | done].
      intros k v H. apply Hv in H. lia.
Qed.

Lemma recorded_below_reduce (lines : list string) (st st' : LineState) :
  recorded_below st → injective_map (lineMap st) → reduce lines st = Ok st' →
  recorded_below st' ∧ injective_map (lineMap st').
Proof.
  revert st. induction lines as [|ln lines IH]; intros st Hb Hinj H; simpl in H.
  - injection H as <-. done.
  - apply bind_Ok in H as (mid & Hstep & Hrest).
    destruct (recorded_below_reducer _ _ _ Hb Hinj Hstep). eauto.
Qed.

Lemma recorded_below_initial :
  recorded_below initialState ∧ injective_map (lineMap initialState).
Proof.
  split; [split; [done|] |]; simpl.
  - intros k v H. by rewrite lookup_empty in H.
  - intros k1 k2 v H. by rewrite lookup_empty in H.
Qed.

Lemma from_addition_snoc (pre : list string) (ln : string) (k v : Z) :
  from_addition pre k v → from_addition (pre ++ [ln]) k v.
Proof.
  intros (i & a & Hi & Ha & -> & ->). exists i, a.
  pose proof (lookup_lt_Some _ _ _ Hi) as Hlt.
  rewrite lookup_app_l by done. rewrite take_app_le by lia. done.
Qed.

Lemma lineMap_from_addition (lines : list string) (st : LineState) :
  reduce lines initialState = Ok st →
  ∀ k v, lineMap st !! k = Some v → from_addition lines k v.
Proof.
  revert st. induction lines as [|ln pre IH] using rev_ind; intros st H k v Hkv.
  - injection H as <-. simpl in Hkv. by rewrite lookup_empty in Hkv.
  - pose proof (counters_reduce _ _ H) as [Hd Hf].
    apply reduce_snoc in H as (mid & Hpre & Hstep).
    destruct (is_header ln) eqn:Hh.
    + apply reducer_header in Hstep as (_ & _ & Hm); [|done].
      rewrite Hm in Hkv. eauto using from_addition_snoc.
    + rewrite reducer_line in Hstep by done. injection Hstep as <-.
      simpl in *. destruct (is_addition ln) eqn:Ha.
      * apply lookup_insert_Some in Hkv as [[<- <-]|[_ Hkv]];
          [|eauto using from_addition_snoc].
        exists (length pre), ln.
        rewrite list_lookup_middle by done.
        rewrite take_ge by (rewrite length_app; simpl; lia).
        rewrite (addition_not_deletion _ Ha) in Hf. done.
      * eauto using from_addition_snoc.
Qed.

(** ** PatchLineMapper: the claims *)

Lemma reducer_keeps_keys (st st' : LineState) (ln : string) (k : Z) :
  reducer st ln = Ok st' → is_Some (lineMap st !! k) → is_Some (lineMap st' !! k).
Proof.
  intros Hstep Hk. destruct (is_header ln) eqn:Hh.
  - apply (reducer_header st st' ln Hh) in Hstep as (_ & _ & ->). done.
  - rewrite reducer_line in Hstep by done. injection Hstep as <-. simpl.
    destruct (is_addition ln); [|done].
    rewrite lookup_insert. case_decide; [eauto | done].
Qed.

Lemma reduce_keeps_keys (lines : list string) (st st' : LineState) (k : Z) :
  reduce lines st = Ok st' → is_Some (lineMap st !! k) → is_Some (lineMap st' !! k).
Proof.
  revert st. induction lines as [|ln lines IH]; intros st H Hk; simpl in H.
  - by injection H as <-.
  - apply bind_Ok in H as (mid & Hstep & Hrest).
    eauto using reducer_keeps_keys.
Qed.

(** C1, as stated, fails. The number in a header is converted to a
    double before one is subtracted: for the header
    [@@ -1,1 +9007199254740993,1 @@] the counter is set to
    9007199254740991, not to [newStart - 1] = 9007199254740992, and the
    addition that follows is recorded at 9007199254740992. *)
Lemma header_number_is_rounded :
  header_number bigHeader - 1 = 9007199254740992 ∧
  reducer initialState bigHeader
  = Ok {| diffLineIndex := 0; fileLineIndex := 9007199254740991; lineMap := ∅ |} ∧
  getLineMapFromPatchString (Some bigPatch) = Ok {[ 9007199254740992 := 1 ]} ∧
  ¬ (∀ st', reducer initialState bigHeader = Ok st' →
            fileLineIndex st' = header_number bigHeader - 1).
Proof.
  split; [vm_compute; reflexivity|]. split; [vm_compute; reflexivity|].
  split; [vm_compute; reflexivity|]. intros H.
  specialize (H {| diffLineIndex := 0; fileLineIndex := 9007199254740991;
                   lineMap := ∅ |}).
  assert (9007199254740991 = header_number bigHeader - 1) as E
    by (apply H; vm_compute; reflexivity).
  vm_compute in E. discriminate.
Qed.

(** C1, amended. Over the lines of any patch that is mapped, the
    reducer keeps two counters.  [diffLineIndex] is 0 before the first
    line, is left alone by a hunk-header line and grows by one on every
    other line: after any prefix it counts the lines that are not hunk
    headers, and it is never reset.  A hunk-header line resets
    [fileLineIndex] to the number of the header, converted to a double,
    minus one; the key recorded at an addition line is the value of
    [fileLineIndex] right after that line.  When
    the numbers stay within the exact range of a double (every header
    number plus the number of lines is at most 2^53), [fileLineIndex]
    is, after any prefix, one less than the number in the last header
    seen plus the lines after that header that are not deletions; a
    header in the standard format resets it to [newStart - 1], with
    [newStart] the number of its [+<newStart>] field. *)
Theorem two_counters
    (patch : string) (m : gmap Z Z) (pre post : list string) (ln : string) :
  getLineMapFromPatchString (Some patch) = Ok m →
  JsString.split LF patch = pre ++ ln :: post →
  ∃ st st',
    reduce pre initialState = Ok st ∧
    reducer st ln = Ok st' ∧
    diffLineIndex st = diffPosition_after pre ∧
    diffLineIndex st' =
      (if is_header ln then diffLineIndex st else diffLineIndex st + 1) ∧
    diffLineIndex st' = diffPosition_after (pre ++ [ln]) ∧
    (is_header ln = true →
     fileLineIndex st' = JsNumber.round (JsNumber.round (header_number ln) - 1)) ∧
    (is_addition ln = true → fileLineIndex st' ∈ dom m) ∧
    (within_exact_range (JsString.split LF patch) →
     fileLineIndex st' = counted_fileLine (pre ++ [ln]) ∧
     ∀ oldStart oldCount ns newCount rest,
       all_digits oldStart = true → all_digits oldCount = true →
       all_digits ns = true → ns ≠ "" →
       ln = hunk_header oldStart oldCount ns newCount rest →
       fileLineIndex st' = JsString.decimal_value ns - 1).
Proof.
  intros H Hsplit. simpl in H. apply bind_Ok in H as (final & Hrun & Hm).
  injection Hm as <-. rewrite Hsplit in *.
  replace (pre ++ ln :: post) with ((pre ++ [ln]) ++ post) in Hrun
    by (by rewrite <- app_assoc).
  rewrite reduce_app in Hrun. apply bind_Ok in Hrun as (st' & Hpre' & Hrest).
  pose proof (counters_reduce _ _ Hpre') as [Hd' Hf'].
  apply reduce_snoc in Hpre' as (st & Hpre & Hstep).
  pose proof (counters_reduce _ _ Hpre) as [Hd Hf].
  exists st, st'. split; [done|]. split; [done|]. split; [done|].
  split; [|split; [done|split; [|split]]].
  - destruct (is_header ln) eqn:Hh.
    + by apply (reducer_header st st' ln Hh) in Hstep as (? & _).
    + rewrite reducer_line in Hstep by done. by injection Hstep as <-.
  - intros Hh. apply (reducer_header st st' ln Hh) in Hstep as (_ & -> & _).
    by rewrite newStart_round.
  - intros Ha. apply elem_of_dom. eapply reduce_keeps_keys; [done|].
    rewrite reducer_line in Hstep by auto using addition_not_header.
    injection Hstep as <-. simpl. rewrite Ha, (addition_not_deletion _ Ha).
    rewrite lookup_insert_eq. eauto.
  - intros [Hlen Hall].
    assert (fileLineIndex st' = counted_fileLine (pre ++ [ln])) as Hcounted.
    { rewrite Hf'. apply (counted_exact (Z.of_nat (length (pre ++ ln :: post))));
        [done| |].
      - rewrite !length_app. simpl. lia.
      - apply Forall_app in Hall as [Hp Hl]. apply Forall_cons in Hl as [Hl _].
        apply Forall_app. split; [done|]. by constructor. }
    split; [done|]. intros os oc ns nc rest Hos Hoc Hns Hne ->.
    rewrite Hcounted. unfold counted_fileLine.
    rewrite open_hunk_snoc. unfold hunk_step. rewrite hunk_header_is_header.
    unfold fileLine_of, count_if. simpl.
    rewrite header_number_hunk_header by done. lia.
Qed.

Lemma two_counters_witness :
  getLineMapFromPatchString (Some twoHunks) = Ok {[ 2 := 2; 12 := 5 ]} ∧
  JsString.split LF twoHunks
    = ["@@ -1,2 +1,3 @@"; " a"; "+b"; " c"] ++ "@@ -10,1 +11,2 @@" :: [" x"; "+y"; ""] ∧
  within_exact_range (JsString.split LF twoHunks) ∧
  ∃ st st',
    reduce ["@@ -1,2 +1,3 @@"; " a"; "+b"; " c"] initialState = Ok st ∧
    reducer st "@@ -10,1 +11,2 @@" = Ok st' ∧
    diffLineIndex st' = diffLineIndex st ∧
    fileLineIndex st' = 11 - 1.
Proof.
  assert (getLineMapFromPatchString (Some twoHunks) = Ok {[ 2 := 2; 12 := 5 ]})
    as H by (vm_compute; reflexivity).
  assert (JsString.split LF twoHunks
          = ["@@ -1,2 +1,3 @@"; " a"; "+b"; " c"]
              ++ "@@ -10,1 +11,2 @@" :: [" x"; "+y"; ""]) as Hsplit
    by (vm_compute; reflexivity).
  assert (within_exact_range (JsString.split LF twoHunks)) as Hrange.
  { rewrite Hsplit. split; [vm_compute; reflexivity|].
    repeat constructor; intros _; vm_compute; discriminate. }
  split; [exact H|]. split; [exact Hsplit|]. split; [exact Hrange|].
  destruct (two_counters twoHunks _ _ _ _ H Hsplit)
    as (st & st' & Hpre & Hstep & _ & Hd & _ & _ & _ & Hexact).
  exists st, st'. split; [exact Hpre|]. split; [exact Hstep|].
  split; [exact Hd|].
  apply (proj2 (Hexact Hrange) "10" "1" "11" "2" ""); reflexivity || discriminate.
Defined.

(** C2. A key need not be the line of an addition in the new file.
    In [markerPatch] the only line that begins with [+] is [+c], the
    second line of the new file, yet the LineMap is [{3: 4}]: the marker
    [\ No newline at end of file] before it has advanced the file-line
    counter as if it were a context line. *)
Theorem marker_line_shifts_keys :
  getLineMapFromPatchString (Some markerPatch) = Ok {[ 3 := 4 ]} ∧
  (∀ (i : nat) (ln : string),
     JsString.split LF markerPatch !! i = Some ln → is_addition ln = true →
     i = 4%nat ∧ newFile_line (take (S i) (JsString.split LF markerPatch)) = 2).
Proof.
  split; [vm_compute; reflexivity|].
  assert (JsString.split LF markerPatch
          = ["@@ -1,2 +1,2 @@"; " a"; "-b"; "\ No newline at end of file";
             "+c"; "\ No newline at end of file"]) as ->
    by (vm_compute; reflexivity).
  intros i ln Hi Ha.
  destruct i as [|[|[|[|[|[|i]]]]]]; simpl in Hi; try discriminate;
    injection Hi as <-; try (vm_compute in Ha; discriminate).
  split; [reflexivity | vm_compute; reflexivity].
Qed.

(** Past 2^53 the counter stops advancing: two additions land on the
    same key and the second one overwrites the first. *)
Example counter_saturates :
  getLineMapFromPatchString (Some (join_lines [bigHeader; "+x"; "+y"]))
  = Ok {[ 9007199254740992 := 2 ]}.
Proof. vm_compute. reflexivity. Qed.

(** C3. The two worked examples: scenario A yields exactly [{2: 2}] and
    scenario B exactly [{1: 2}]. *)
Theorem worked_examples :
  getLineMapFromPatchString (Some scenarioA) = Ok {[ 2 := 2 ]} ∧
  getLineMapFromPatchString (Some scenarioB) = Ok {[ 1 := 2 ]}.
Proof. split; vm_compute; reflexivity. Qed.

(** C4, as stated, fails: an absent patch does not yield the empty map,
    the call throws. *)
Lemma absent_patch_throws :
  getLineMapFromPatchString None = Throw TypeError ∧
  ¬ (∀ patch : option string,
       patch = None ∨ patch = Some "" →
       getLineMapFromPatchString patch = Ok ∅).
Proof.
  split; [reflexivity|]. intros H.
  specialize (H None (or_introl eq_refl)). discriminate.
Qed.

(** C4, amended. The empty string yields the empty LineMap and no
    error; the function takes a string, and an absent patch makes it
    throw a [TypeError] instead of returning a map. *)
Theorem empty_patch_empty_map :
  getLineMapFromPatchString (Some "") = Ok ∅ ∧
  getLineMapFromPatchString None = Throw TypeError.
Proof. split; reflexivity. Qed.

(** ** The event loop *)

Section PipelineProperties.

Variable FILE_FILTER : string → bool.
Variable atob : string → string.
Variable eslint_messages : string → string → option (list Finding).
Variable github : ∀ R : Type, Request R → Reply R.

Local Abbreviation serve' := (serve FILE_FILTER atob eslint_messages github).

Lemma deliver_dead (f : Proc → Proc) (p : Proc) :
  uncaught p ≠ None → deliver f p = p.
Proof. unfold deliver. by destruct (uncaught p). Qed.

(** Once the pending callbacks are sure to end in a crash, listing
    more commits does not save the process. *)
Lemma run_listings_dead (callback : list ChangedFile → string → Task)
    (cs : list Commit) (pending : Proc → Proc) (p : Proc) :
  (∀ q, uncaught (pending q) ≠ None) →
  uncaught (run github (for_each (getFilesFromCommit callback) cs) pending p) ≠ None.
Proof.
  revert pending p. induction cs as [|c cs IH]; intros pending p Hdead; simpl.
  - apply Hdead.
  - apply IH. intros q. by rewrite deliver_dead.
Qed.

Lemma run_listings_bad (callback : list ChangedFile → string → Task)
    (before after : list Commit) (bad : Commit) (e : Err)
    (pending : Proc → Proc) (p : Proc) :
  github _ (repos_getCommit (sha bad)) = reply_error e →
  uncaught (run github
                (for_each (getFilesFromCommit callback) (before ++ bad :: after))
                pending p) ≠ None.
Proof.
  intros Hbad. revert pending p.
  induction before as [|c before IH]; intros pending p; simpl.
  - apply run_listings_dead. intros q. rewrite Hbad. simpl.
    unfold deliver. destruct (uncaught (pending q)) eqn:Hq; [by rewrite Hq | done].
  - apply IH.
Qed.

(** When the callback of the first listing throws, the later listings
    are still requested, and then the process ends. *)
Lemma run_listings_crash (callback : list ChangedFile → string → Task)
    (cs : list Commit) (pending : Proc → Proc) (p : Proc) :
  (∀ q, uncaught q = None → pending q = crash TypeError q) →
  uncaught p = None →
  run github (for_each (getFilesFromCommit callback) cs) pending p
  = crash TypeError
      {| trace := trace p ++ map (fun c => Api (repos_getCommit (sha c))) cs;
         uncaught := None |}.
Proof.
  revert pending p. induction cs as [|c cs IH]; intros pending p Hp Halive; simpl.
  - rewrite Hp by done. unfold crash. simpl. by rewrite app_nil_r.
  - rewrite IH; [| |done].
    + unfold crash. simpl. by rewrite <- app_assoc.
    + intros q Hq. rewrite Hp by done. by rewrite deliver_dead.
Qed.

(** C5. When listing the commits fails, that is when the client calls
    back with the error alone, the error is logged and no comment is
    submitted, but the callback goes on to [commits.map] on
    [undefined]: a [TypeError] escapes and ends the process. *)
Theorem listing_failure_escapes (pr : PullRequestRef) (e : Err) :
  github _ (pullRequests_getCommits (number pr)) = reply_error e →
  serve' (Some {| pull_request := Some pr |}) boot
  = {| trace := [Api (pullRequests_getCommits (number pr)); ResponseEnd;
                 ConsoleLog e];
       uncaught := Some TypeError |}.
Proof. intros H. unfold serve. simpl. rewrite H. reflexivity. Qed.

(** C6. When fetching the files of one commit fails, the callback
    throws while binding [{files}], before it logs anything, and the
    exception ends the process whatever the other commits are.  When the
    failing commit is the first one, the trace shows it: every listing
    is requested, nothing is logged, and no other commit is handled. *)
Theorem commit_failure_is_fatal
    (pr : PullRequestRef) (before after : list Commit) (bad : Commit) (e : Err) :
  github _ (pullRequests_getCommits (number pr))
    = reply_ok (before ++ bad :: after) →
  github _ (repos_getCommit (sha bad)) = reply_error e →
  uncaught (serve' (Some {| pull_request := Some pr |}) boot) ≠ None ∧
  (before = [] →
   serve' (Some {| pull_request := Some pr |}) boot
   = {| trace := [Api (pullRequests_getCommits (number pr)); ResponseEnd]
                   ++ map (fun c => Api (repos_getCommit (sha c))) (bad :: after);
        uncaught := Some TypeError |}).
Proof.
  intros Hlist Hbad. unfold serve. simpl. rewrite Hlist. simpl. split.
  - by eapply run_listings_bad.
  - intros ->. simpl. rewrite Hbad. unfold deliver. simpl.
    rewrite run_listings_crash; [done| |done].
    intros q Hq. by rewrite Hq.
Qed.

(** C7. A body without a [pull_request], or no body at all, makes the
    handler end the response and do nothing else: no request goes to
    the HostingClient. *)
Theorem no_pull_request_no_calls (payload : option Payload) (p : Proc) :
  payload ≫= pull_request = None →
  serve' payload p = emit ResponseEnd p ∧
  List.filter is_api (trace (serve' payload p)) = List.filter is_api (trace p).
Proof.
  intros H.
  assert (serve' payload p = emit ResponseEnd p) as ->.
  { unfold serve, handler. destruct payload as [pl|]; simpl in *; [|done].
    by rewrite H. }
  split; [done|]. simpl. rewrite List.filter_app. simpl. by rewrite app_nil_r.
Qed.

(** C8. [filterJavascriptFiles] keeps a subsequence of its input, in
    the order of the input, and keeps exactly the entries whose filename
    matches the pattern: none that fails it is returned. *)
Theorem filterJavascriptFiles_filter (fs : list ChangedFile) :
  sublist (filterJavascriptFiles FILE_FILTER fs) fs ∧
  Forall (fun f => FILE_FILTER (filename f) = true)
         (filterJavascriptFiles FILE_FILTER fs) ∧
  Forall (fun f => FILE_FILTER (filename f) = false →
                   f ∉ filterJavascriptFiles FILE_FILTER fs) fs.
Proof.
  assert (Forall (fun f => FILE_FILTER (filename f) = true)
                 (filterJavascriptFiles FILE_FILTER fs)) as Hall.
  { apply Forall_forall. intros f Hf. apply list_elem_of_In in Hf.
    by apply List.filter_In in Hf as [_ ?]. }
  split; [|split; [done|]].
  - clear Hall. unfold filterJavascriptFiles.
    induction fs as [|f fs IH]; simpl; [done|].
    destruct (FILE_FILTER (filename f)); [by apply sublist_skip | by apply sublist_cons].
  - apply Forall_forall. intros f _ Hno Hin.
    rewrite Forall_forall in Hall. apply Hall in Hin. congruence.
Qed.

End PipelineProperties.

Lemma listing_failure_escapes_witness :
  World.listing_fails "boom" _ (pullRequests_getCommits 7) = reply_error "boom" ∧
  World.serve_in (World.listing_fails "boom")
  = {| trace := [Api (pullRequests_getCommits 7); ResponseEnd; ConsoleLog "boom"];
       uncaught := Some TypeError |}.
Proof.
  split; [reflexivity|].
  apply (listing_failure_escapes World.FILE_FILTER World.atob World.eslint_messages
           (World.listing_fails "boom") {| number := 7 |} "boom").
  reflexivity.
Defined.

Lemma commit_failure_is_fatal_witness :
  World.commit_fails [World.commitA; World.commitB] "aaa" "boom" _
    (pullRequests_getCommits 7) = reply_ok ([] ++ World.commitA :: [World.commitB]) ∧
  World.commit_fails [World.commitA; World.commitB] "aaa" "boom" _
    (repos_getCommit "aaa") = reply_error "boom" ∧
  World.serve_in (World.commit_fails [World.commitA; World.commitB] "aaa" "boom")
  = {| trace := [Api (pullRequests_getCommits 7); ResponseEnd;
                 Api (repos_getCommit "aaa"); Api (repos_getCommit "bbb")];
       uncaught := Some TypeError |}.
Proof.
  split; [reflexivity|]. split; [reflexivity|].
  apply (commit_failure_is_fatal World.FILE_FILTER World.atob World.eslint_messages
           (World.commit_fails [World.commitA; World.commitB] "aaa" "boom")
           {| number := 7 |} [] [World.commitB] World.commitA "boom");
    reflexivity.
Defined.

(** The same event when the failing commit is the last one: the first
    commit gets its comment, then the failure ends the process, still
    without a log entry. *)
Example commit_failure_last :
  World.serve_in (World.commit_fails [World.commitA; World.commitB] "bbb" "boom")
  = {| trace := [Api (pullRequests_getCommits 7); ResponseEnd;
                 Api (repos_getCommit "aaa"); Api (repos_getCommit "bbb");
                 Api (repos_getContent "b.js" "aaa");
                 Api (pullRequests_createComment (World.commentOn World.commitA))];
       uncaught := Some TypeError |}.
Proof. vm_compute. reflexivity. Qed.

(** With no failure both commits get their comment. *)
Example healthy_event :
  World.serve_in (World.healthy [World.commitA; World.commitB])
  = {| trace := [Api (pullRequests_getCommits 7); ResponseEnd;
                 Api (repos_getCommit "aaa"); Api (repos_getCommit "bbb");
                 Api (repos_getContent "b.js" "aaa");
                 Api (pullRequests_createComment (World.commentOn World.commitA));
                 Api (repos_getContent "b.js" "bbb");
                 Api (pullRequests_createComment (World.commentOn World.commitB))];
       uncaught := None |}.
Proof. vm_compute. reflexivity. Qed.

Lemma no_pull_request_no_calls_witness :
  Some {| pull_request := None |} ≫= pull_request = None ∧
  serve World.FILE_FILTER World.atob World.eslint_messages
        (World.healthy [World.commitA]) (Some {| pull_request := None |}) boot
  = emit ResponseEnd boot.
Proof.
  split; [reflexivity|].
  apply (no_pull_request_no_calls World.FILE_FILTER World.atob World.eslint_messages
           (World.healthy [World.commitA]) (Some {| pull_request := None |}) boot).
  reflexivity.
Defined.

(** ** The positions recorded in the map *)

(** C9. Every value of the LineMap is at least 1.  Hence the truthiness
    test of [sendSingleComment] holds exactly for the lines that are
    keys of the map: a finding on a mapped line is commented on, at its
    recorded position, and a finding on any other line submits nothing. *)
Theorem positions_are_truthy (patch : option string) (m : gmap Z Z) :
  getLineMapFromPatchString patch = Ok m →
  (∀ k v, m !! k = Some v → 1 ≤ v) ∧
  (∀ l, truthy (m !! l) = true ↔ l ∈ dom m) ∧
  (∀ number filename f sha,
     sendSingleComment number filename m f sha =
       match m !! line f with
       | Some position =>
           Fire (pullRequests_createComment
                   {| cm_number := number; cm_sha := sha; cm_path := filename;
                      cm_commit_id := sha; cm_body := comment_body f;
                      cm_position := Some position |})
                Done
       | None => Done
       end).
Proof.
  intros H. destruct patch as [s|]; [|discriminate]. simpl in H.
  apply bind_Ok in H as (st & Hrun & Hm). injection Hm as <-.
  destruct recorded_below_initial as [Hb Hinj].
  destruct (recorded_below_reduce _ _ _ Hb Hinj Hrun) as [[_ Hv] _].
  assert (∀ l, truthy (lineMap st !! l) = true ↔ l ∈ dom (lineMap st)) as Htruthy.
  { intros l. rewrite elem_of_dom. destruct (lineMap st !! l) as [v|] eqn:Hl; simpl.
    - apply Hv in Hl. split; [eauto|]. intros _.
      apply negb_true_iff, Z.eqb_neq. lia.
    - split; [done|]. by intros [? ?]. }
  split; [|split; [done|]].
  - intros k v Hk. apply Hv in Hk. lia.
  - intros number filename f sha. unfold sendSingleComment.
    destruct (lineMap st !! line f) as [v|] eqn:Hl; simpl; [|done].
    apply Hv in Hl. assert ((v =? 0) = false) as -> by (apply Z.eqb_neq; lia).
    done.
Qed.

Lemma positions_are_truthy_witness :
  getLineMapFromPatchString (Some scenarioB) = Ok {[ 1 := 2 ]} ∧
  (truthy (({[ 1 := 2 ]} : gmap Z Z) !! 1) = true ↔ 1 ∈ dom ({[ 1 := 2 ]} : gmap Z Z)).
Proof.
  assert (getLineMapFromPatchString (Some scenarioB) = Ok {[ 1 := 2 ]}) as H
    by (vm_compute; reflexivity).
  split; [exact H|].
  apply (proj1 (proj2 (positions_are_truthy (Some scenarioB) _ H)) 1).
Defined.

(** C10. The LineMap is injective: two different file lines never carry
    the same diff position.  The reason is the single pass: an addition
    line records the incremented counter, which is larger than every
    value recorded before it. *)
Theorem lineMap_injective (patch : string) (m : gmap Z Z) :
  getLineMapFromPatchString (Some patch) = Ok m →
  (∀ k1 k2 v1 v2, k1 ≠ k2 → m !! k1 = Some v1 → m !! k2 = Some v2 → v1 ≠ v2) ∧
  (∀ pre ln post st,
     JsString.split LF patch = pre ++ ln :: post →
     reduce pre initialState = Ok st →
     is_addition ln = true →
     reducer st ln =
       Ok {| diffLineIndex := diffLineIndex st + 1;
             fileLineIndex := JsNumber.round (fileLineIndex st + 1);
             lineMap := <[JsNumber.round (fileLineIndex st + 1) := diffLineIndex st + 1]>
                          (lineMap st) |} ∧
     ∀ k v, lineMap st !! k = Some v → v < diffLineIndex st + 1).
Proof.
  intros H. simpl in H. apply bind_Ok in H as (st & Hrun & Hm). injection Hm as <-.
  destruct recorded_below_initial as [Hb Hinj]. split.
  - destruct (recorded_below_reduce _ _ _ Hb Hinj Hrun) as [_ Hi].
    intros k1 k2 v1 v2 Hne H1 H2 ->. eauto.
  - intros pre ln post mid _ Hpre Ha. split.
    + rewrite reducer_line by auto using addition_not_header.
      by rewrite Ha, (addition_not_deletion _ Ha).
    + destruct (recorded_below_reduce _ _ _ Hb Hinj Hpre) as [[_ Hv] _].
      intros k v Hk. apply Hv in Hk. lia.
Qed.

Lemma lineMap_injective_witness :
  getLineMapFromPatchString (Some twoHunks) = Ok {[ 2 := 2; 12 := 5 ]} ∧
  (2 ≠ 12 →
   ({[ 2 := 2; 12 := 5 ]} : gmap Z Z) !! 2 = Some 2 →
   ({[ 2 := 2; 12 := 5 ]} : gmap Z Z) !! 12 = Some 5 → 2 ≠ 5).
Proof.
  assert (getLineMapFromPatchString (Some twoHunks) = Ok {[ 2 := 2; 12 := 5 ]}) as H
    by (vm_compute; reflexivity).
  split; [exact H|].
  apply (proj1 (lineMap_injective twoHunks _ H) 2 12 2 5).
Defined.


(** * Further properties of the line mapper *)

(** ** When the mapper throws *)

Lemma reducer_Ok_iff (st : LineState) (ln : string) :
  (∃ st', reducer st ln = Ok st') ↔ header_without_number ln = false.
Proof.
  unfold header_without_number. destruct (is_header ln) eqn:Hh; simpl.
  - unfold reducer. unfold is_header in Hh. rewrite Hh.
    destruct (JsString.match_plus_digits ln) as [m|]; simpl.
    + split; [done | eauto].
    + split; [by intros [? ?] | done].
  - rewrite reducer_line by done. split; [done | eauto].
Qed.

Lemma reduce_Ok_iff (lines : list string) (st : LineState) :
  (∃ st', reduce lines st = Ok st')
  ↔ Forall (fun ln => header_without_number ln = false) lines.
Proof.
  revert st. induction lines as [|ln lines IH]; intros st; simpl.
  - split; [constructor | eauto].
  - rewrite Forall_cons, <- reducer_Ok_iff. split.
    + intros [st' H]. apply bind_Ok in H as (mid & Hstep & Hrest).
      split; [eauto|]. apply (IH mid). eauto.
    + intros [[mid Hstep] Hrest]. rewrite Hstep. simpl. by apply IH.
Qed.

(** X1. On a string, the mapper returns a map exactly when every line
    that begins with [@@] holds a [+] followed by a digit; otherwise,
    and only then, it throws a [TypeError]. *)
Theorem mapper_throws_iff (patch : string) :
  ((∃ m, getLineMapFromPatchString (Some patch) = Ok m)
   ↔ Forall (fun ln => header_without_number ln = false) (JsString.split LF patch)) ∧
  (getLineMapFromPatchString (Some patch) = Throw TypeError
   ↔ Exists (fun ln => header_without_number ln = true) (JsString.split LF patch)).
Proof.
  assert ((∃ m, getLineMapFromPatchString (Some patch) = Ok m)
          ↔ Forall (fun ln => header_without_number ln = false)
                   (JsString.split LF patch)) as HOk.
  { rewrite <- (reduce_Ok_iff _ initialState). simpl. split.
    - intros [m H]. apply bind_Ok in H as (st & H & _). eauto.
    - intros [st H]. rewrite H. simpl. eauto. }
  split; [done|]. split.
  - intros Hthrow.
    assert (¬ Forall (fun ln => header_without_number ln = false)
                     (JsString.split LF patch)) as Hnot.
    { intros Hall. apply HOk in Hall as [m Hm]. congruence. }
    apply not_Forall_Exists in Hnot; [|intros ln; apply _].
    eapply Exists_impl; [exact Hnot|]. intros ln Hln. simpl in Hln.
    by destruct (header_without_number ln).
  - intros Hex. destruct (getLineMapFromPatchString (Some patch)) as [m|[]] eqn:Hm;
      [|done].
    assert (Forall (fun ln => header_without_number ln = false)
                   (JsString.split LF patch)) as Hall by (apply HOk; eauto).
    apply Exists_exists in Hex as (ln & Hin & Hbad).
    rewrite Forall_forall in Hall. apply Hall in Hin. congruence.
Qed.

Lemma standard_header_has_number (ln : string) :
  standard_header ln → header_without_number ln = false.
Proof.
  intros (os & oc & ns & nc & rest & Hos & Hoc & Hns & Hne & ->).
  unfold header_without_number. rewrite hunk_header_is_header, andb_true_l.
  apply bool_decide_eq_false. unfold hunk_header.
  rewrite (match_plus_digits_skip "@@ -") by reflexivity.
  rewrite match_plus_digits_skip_digits by done.
  rewrite (match_plus_digits_skip ",") by reflexivity.
  rewrite match_plus_digits_skip_digits by done.
  rewrite !append_cons, !append_nil_l. simpl.
  rewrite take_digits_app by done. simpl. rewrite append_empty.
  by destruct ns.
Qed.

(** X15. A patch whose [@@] lines are all in the standard format
    [@@ -a,b +c,d @@ ...] is always mapped: the mapper does not throw
    on it. *)
Theorem standard_patch_is_mapped (patch : string) :
  Forall (fun ln => is_header ln = true → standard_header ln)
         (JsString.split LF patch) →
  ∃ m, getLineMapFromPatchString (Some patch) = Ok m.
Proof.
  intros Hall.
  assert (∃ st, reduce (JsString.split LF patch) initialState = Ok st) as [st Hst].
  { apply reduce_Ok_iff. eapply Forall_impl; [exact Hall|]. intros ln Hln. simpl in Hln.
    destruct (is_header ln) eqn:Hh.
    - by apply standard_header_has_number, Hln.
    - unfold header_without_number. by rewrite Hh. }
  exists (lineMap st). simpl. by rewrite Hst.
Qed.

Lemma standard_patch_is_mapped_witness :
  Forall (fun ln => is_header ln = true → standard_header ln)
         (JsString.split LF scenarioA) ∧
  ∃ m, getLineMapFromPatchString (Some scenarioA) = Ok m.
Proof.
  assert (Forall (fun ln => is_header ln = true → standard_header ln)
                 (JsString.split LF scenarioA)) as Hall.
  { assert (JsString.split LF scenarioA
            = [hunk_header "1" "2" "1" "3" ""; " a"; "+b"; " c"; ""]) as ->
      by (vm_compute; reflexivity).
    constructor; [|repeat constructor; discriminate].
    intros _. exists "1", "2", "1", "3", "". repeat split; discriminate || reflexivity. }
  split; [exact Hall|]. exact (standard_patch_is_mapped scenarioA Hall).
Defined.

(** ** Which lines are mapped *)

Lemma addition_recorded (pre : list string) (ln : string) (st : LineState) :
  reduce (pre ++ [ln]) initialState = Ok st → is_addition ln = true →
  lineMap st !! fileLineIndex_after (pre ++ [ln]) = Some (diffPosition_after (pre ++ [ln])).
Proof.
  intros H Ha. pose proof (counters_reduce _ _ H) as [Hd Hf].
  apply reduce_snoc in H as (mid & _ & Hstep).
  rewrite reducer_line in Hstep by auto using addition_not_header.
  injection Hstep as <-. simpl in *.
  rewrite Ha in *. rewrite (addition_not_deletion _ Ha) in Hf.
  rewrite <- Hd, <- Hf. apply lookup_insert_eq.
Qed.

Lemma addition_survives (pre post : list string) (ln : string) (st : LineState) :
  reduce (pre ++ ln :: post) initialState = Ok st → is_addition ln = true →
  (∀ post1 ln2 post2,
     post = post1 ++ ln2 :: post2 → is_addition ln2 = true →
     fileLineIndex_after (pre ++ ln :: post1 ++ [ln2]) ≠ fileLineIndex_after (pre ++ [ln])) →
  lineMap st !! fileLineIndex_after (pre ++ [ln]) = Some (diffPosition_after (pre ++ [ln])).
Proof.
  intros H Ha. revert st H.
  induction post as [|x post IH] using rev_ind; intros st H Hlast.
  - by apply addition_recorded.
  - replace (pre ++ ln :: post ++ [x]) with ((pre ++ ln :: post) ++ [x]) in H
      by (by rewrite <- app_assoc).
    pose proof (counters_reduce _ _ H) as [_ Hf].
    apply reduce_snoc in H as (mid & Hmid & Hstep).
    assert (lineMap mid !! fileLineIndex_after (pre ++ [ln])
            = Some (diffPosition_after (pre ++ [ln]))) as Hk.
    { apply IH; [done|]. intros post1 ln2 post2 -> Ha2.
      apply (Hlast post1 ln2 (post2 ++ [x])); [|done].
      by rewrite <- app_assoc. }
    destruct (is_header x) eqn:Hh.
    + apply (reducer_header mid st x Hh) in Hstep as (_ & _ & ->). done.
    + rewrite reducer_line in Hstep by done. injection Hstep as <-. simpl in *.
      destruct (is_addition x) eqn:Hx; [|done].
      rewrite (addition_not_deletion _ Hx) in Hf.
      rewrite lookup_insert_ne; [done|]. rewrite Hf.
      replace ((pre ++ ln :: post) ++ [x]) with (pre ++ ln :: post ++ [x])
        by (by rewrite <- app_assoc).
      by apply (Hlast post x []).
Qed.

Lemma addition_key_in_dom (pre post : list string) (ln : string) (st : LineState) :
  reduce (pre ++ ln :: post) initialState = Ok st → is_addition ln = true →
  fileLineIndex_after (pre ++ [ln]) ∈ dom (lineMap st).
Proof.
  intros Hrun Ha. apply elem_of_dom.
  replace (pre ++ ln :: post) with ((pre ++ [ln]) ++ post) in Hrun
    by (by rewrite <- app_assoc).
  rewrite reduce_app in Hrun. apply bind_Ok in Hrun as (mid & Hmid & Hrest).
  eapply reduce_keeps_keys; [done|]. erewrite addition_recorded; eauto.
Qed.

Lemma addition_not_marker (ln : string) :
  is_addition ln = true → is_marker ln = false.
Proof.
  unfold is_addition, is_marker. intros H%bool_decide_eq_true.
  apply bool_decide_eq_false. rewrite H. discriminate.
Qed.

Lemma open_hunk_body (lines : list string) (l : string) :
  l ∈ snd (open_hunk lines) → l ∈ lines.
Proof.
  induction lines as [|ln pre IH] using rev_ind; [done|].
  rewrite open_hunk_snoc. unfold hunk_step.
  destruct (is_header ln); simpl; [by intros ?%elem_of_nil|].
  rewrite !elem_of_app. intros [?|?]; auto.
Qed.

Lemma count_if_ext (p q : string → bool) (ls : list string) :
  Forall (fun l => p l = q l) ls → count_if p ls = count_if q ls.
Proof.
  unfold count_if. intros H. f_equal. f_equal.
  induction H as [|l ls Hl _ IH]; simpl; [done|]. by rewrite Hl, IH.
Qed.

Lemma newFile_line_counted (lines : list string) :
  Forall (fun l => is_marker l = false) lines →
  newFile_line lines = counted_fileLine lines.
Proof.
  intros H. unfold newFile_line, counted_fileLine, fileLine_of. f_equal.
  apply count_if_ext, Forall_forall. intros l Hl.
  rewrite Forall_forall in H. rewrite (H l) by eauto using open_hunk_body.
  apply andb_true_r.
Qed.

(** X2. Every line of the patch that begins with [+] is mapped: the
    value [fileLineIndex] has right after it is a key of the LineMap,
    and the value found there is the diff position of that very line
    unless a later addition reaches the same counter value and
    overwrites it.  When the numbers of the patch stay within the exact
    range of a double and no [\ No newline at end of file] marker
    precedes the line, that key is the line of the addition in the new
    file. *)
Theorem addition_line_is_mapped
    (patch : string) (m : gmap Z Z) (pre post : list string) (ln : string) :
  getLineMapFromPatchString (Some patch) = Ok m →
  JsString.split LF patch = pre ++ ln :: post →
  is_addition ln = true →
  fileLineIndex_after (pre ++ [ln]) ∈ dom m ∧
  ((∀ post1 ln2 post2,
      post = post1 ++ ln2 :: post2 → is_addition ln2 = true →
      fileLineIndex_after (pre ++ ln :: post1 ++ [ln2])
      ≠ fileLineIndex_after (pre ++ [ln])) →
   m !! fileLineIndex_after (pre ++ [ln]) = Some (diffPosition_after (pre ++ [ln]))) ∧
  (within_exact_range (JsString.split LF patch) →
   Forall (fun l => is_marker l = false) pre →
   fileLineIndex_after (pre ++ [ln]) = newFile_line (pre ++ [ln])).
Proof.
  intros H Hsplit Ha. simpl in H. apply bind_Ok in H as (st & Hrun & Hm).
  injection Hm as <-. rewrite Hsplit in *. split; [|split].
  - by apply (addition_key_in_dom pre post).
  - intros Hlast. by apply (addition_survives pre post).
  - intros [Hlen Hall] Hmark.
    rewrite newFile_line_counted
      by (apply Forall_app; split; [done|]; constructor;
          [by apply addition_not_marker | done]).
    apply (counted_exact (Z.of_nat (length (pre ++ ln :: post)))); [done| |].
    + rewrite !length_app. simpl. lia.
    + apply Forall_app in Hall as [Hp Hl]. apply Forall_cons in Hl as [Hl _].
      apply Forall_app. split; [done|]. by constructor.
Qed.

Lemma addition_line_is_mapped_witness :
  getLineMapFromPatchString (Some oneHunk) = Ok {[ 2 := 3; 3 := 4 ]} ∧
  JsString.split LF oneHunk
    = ["@@ -1,3 +1,4 @@"; " a"; "-b"] ++ "+c" :: ["+d"; ""] ∧
  is_addition "+c" = true ∧
  fileLineIndex_after (["@@ -1,3 +1,4 @@"; " a"; "-b"] ++ ["+c"])
    ∈ dom ({[ 2 := 3; 3 := 4 ]} : gmap Z Z).
Proof.
  assert (getLineMapFromPatchString (Some oneHunk) = Ok {[ 2 := 3; 3 := 4 ]}) as H
    by (vm_compute; reflexivity).
  assert (JsString.split LF oneHunk
          = ["@@ -1,3 +1,4 @@"; " a"; "-b"] ++ "+c" :: ["+d"; ""]) as Hsplit
    by (vm_compute; reflexivity).
  split; [exact H|]. split; [exact Hsplit|]. split; [reflexivity|].
  exact (proj1 (addition_line_is_mapped oneHunk _ _ _ "+c" H Hsplit eq_refl)).
Defined.

(** X3. The LineMap is empty exactly when no line of the patch begins
    with [+]: a patch of context lines, deletions and headers maps
    nothing, and a single addition suffices for a key. *)
Theorem empty_map_iff_no_addition (patch : string) (m : gmap Z Z) :
  getLineMapFromPatchString (Some patch) = Ok m →
  (m = ∅ ↔ Forall (fun ln => is_addition ln = false) (JsString.split LF patch)).
Proof.
  intros H. split.
  - intros ->. apply Forall_forall. intros ln Hin.
    destruct (is_addition ln) eqn:Ha; [|done].
    apply list_elem_of_split in Hin as (pre & post & Hsplit).
    simpl in H. apply bind_Ok in H as (st & Hrun & Hm). injection Hm as Hm.
    rewrite Hsplit in Hrun.
    pose proof (addition_key_in_dom pre post ln st Hrun Ha) as Hdom.
    by rewrite Hm, dom_empty_L in Hdom.
  - intros Hall. apply map_empty. intros k.
    destruct (m !! k) as [v|] eqn:Hk; [|done].
    simpl in H. apply bind_Ok in H as (st & Hrun & Hm). injection Hm as <-.
    destruct (lineMap_from_addition _ _ Hrun k v Hk) as (i & ln & Hi & Ha & _).
    rewrite Forall_forall in Hall.
    rewrite Hall in Ha by eauto using list_elem_of_lookup_2. done.
Qed.

Lemma empty_map_iff_no_addition_witness :
  getLineMapFromPatchString (Some deletionOnly) = Ok ∅ ∧
  ((∅ : gmap Z Z) = ∅
   ↔ Forall (fun ln => is_addition ln = false) (JsString.split LF deletionOnly)).
Proof.
  assert (getLineMapFromPatchString (Some deletionOnly) = Ok ∅) as H
    by (vm_compute; reflexivity).
  split; [exact H|]. exact (empty_map_iff_no_addition deletionOnly ∅ H).
Defined.

(** ** Order inside one hunk *)

Lemma ordered_below_line (st st' : LineState) (ln : string) :
  is_header ln = false →
  ordered_below st → settled (fileLineIndex st) →
  reducer st ln = Ok st' →
  ordered_below st' ∧ settled (fileLineIndex st').
Proof.
  intros Hh [Hb Ho] Hset Hstep. rewrite reducer_line in Hstep by done.
  injection Hstep as <-. unfold ordered_below. simpl.
  destruct (settled_step _ Hset) as [Hround Hset'].
  destruct (is_addition ln) eqn:Ha.
  - rewrite (addition_not_deletion _ Ha). split; [|done]. split.
    + intros k v [[<- <-]|[_ H]]%lookup_insert_Some; [lia|].
      apply Hb in H. lia.
    + intros k1 v1 k2 v2 H1 H2 Hlt.
      apply lookup_insert_Some in H1 as [[E1 V1]|[_ H1]];
        apply lookup_insert_Some in H2 as [[E2 V2]|[_ H2]].
      * lia.
      * apply Hb in H2. lia.
      * apply Hb in H1. lia.
      * eauto.
  - split.
    + split; [|done]. intros k v H. apply Hb in H.
      destruct (is_deletion ln); lia.
    + by destruct (is_deletion ln).
Qed.

Lemma ordered_below_lines (lines : list string) (st st' : LineState) :
  Forall (fun ln => is_header ln = false) lines →
  ordered_below st → settled (fileLineIndex st) →
  reduce lines st = Ok st' → ordered_below st'.
Proof.
  intros Hall. revert st.
  induction Hall as [|ln lines Hh _ IH]; intros st Ho Hset H; simpl in H.
  - by injection H as <-.
  - apply bind_Ok in H as (mid & Hstep & Hrest).
    destruct (ordered_below_line _ _ _ Hh Ho Hset Hstep). eauto.
Qed.

Lemma ordered_below_empty (st : LineState) : lineMap st = ∅ → ordered_below st.
Proof.
  intros He. unfold ordered_below. rewrite He.
  split; intros k v; by rewrite lookup_empty.
Qed.

Lemma settled_after_header (st st' : LineState) (ln : string) :
  is_header ln = true → reducer st ln = Ok st' → settled (fileLineIndex st').
Proof.
  intros Hh Hstep. apply (reducer_header _ _ _ Hh) in Hstep as (_ & -> & _).
  rewrite newStart_round. apply settled_header, header_number_nonneg.
Qed.

(** X4. In a patch where no hunk header follows the first line, the
    LineMap is increasing: of two mapped file lines the larger one has
    the larger diff position, and the positions are at least as far
    apart as the file lines. *)
Theorem single_hunk_increasing
    (patch : string) (m : gmap Z Z) (h : string) (body : list string) :
  getLineMapFromPatchString (Some patch) = Ok m →
  JsString.split LF patch = h :: body →
  Forall (fun ln => is_header ln = false) body →
  ∀ k1 v1 k2 v2,
    m !! k1 = Some v1 → m !! k2 = Some v2 →
    (k1 < k2 ↔ v1 < v2) ∧ (k1 < k2 → k2 - k1 ≤ v2 - v1).
Proof.
  intros H Hsplit Hbody. simpl in H. apply bind_Ok in H as (st & Hrun & Hm).
  injection Hm as <-. rewrite Hsplit in Hrun. simpl in Hrun.
  apply bind_Ok in Hrun as (mid & Hfirst & Hrest).
  assert (ordered_below mid ∧ settled (fileLineIndex mid)) as [Hmid Hset].
  { destruct (is_header h) eqn:Hh.
    - split; [|by eapply settled_after_header].
      apply (reducer_header _ _ _ Hh) in Hfirst as (_ & _ & He).
      by apply ordered_below_empty.
    - eapply ordered_below_line; [done| | |done].
      + by apply ordered_below_empty.
      + left. simpl. lia. }
  destruct (ordered_below_lines _ _ _ Hbody Hmid Hset Hrest) as [_ Ho].
  intros k1 v1 k2 v2 H1 H2. split; [split|].
  - intros Hlt. by destruct (Ho _ _ _ _ H1 H2 Hlt).
  - intros Hlt. destruct (Z.lt_trichotomy k1 k2) as [?|[->|Hgt]]; [done| |].
    + rewrite H1 in H2. injection H2 as ->. lia.
    + destruct (Ho _ _ _ _ H2 H1 Hgt). lia.
  - intros Hlt. destruct (Ho _ _ _ _ H1 H2 Hlt). lia.
Qed.

Lemma single_hunk_increasing_witness :
  getLineMapFromPatchString (Some oneHunk) = Ok {[ 2 := 3; 3 := 4 ]} ∧
  JsString.split LF oneHunk = "@@ -1,3 +1,4 @@" :: [" a"; "-b"; "+c"; "+d"; ""] ∧
  Forall (fun ln => is_header ln = false) [" a"; "-b"; "+c"; "+d"; ""] ∧
  ((2 < 3 ↔ 3 < 4) ∧ (2 < 3 → 3 - 2 ≤ 4 - 3)).
Proof.
  assert (getLineMapFromPatchString (Some oneHunk) = Ok {[ 2 := 3; 3 := 4 ]}) as H
    by (vm_compute; reflexivity).
  assert (JsString.split LF oneHunk
          = "@@ -1,3 +1,4 @@" :: [" a"; "-b"; "+c"; "+d"; ""]) as Hsplit
    by (vm_compute; reflexivity).
  assert (Forall (fun ln => is_header ln = false) [" a"; "-b"; "+c"; "+d"; ""])
    as Hbody by (repeat constructor).
  split; [exact H|]. split; [exact Hsplit|]. split; [exact Hbody|].
  apply (single_hunk_increasing oneHunk _ _ _ H Hsplit Hbody 2 3 3 4); reflexivity.
Defined.

(** ** Bounds and the final newline *)

Lemma count_if_le (p : string → bool) (lines : list string) :
  count_if p lines ≤ Z.of_nat (length lines).
Proof.
  unfold count_if. apply inj_le. induction lines as [|ln lines IH]; simpl; [done|].
  destruct (p ln); simpl; lia.
Qed.

(** X5. A recorded diff position never exceeds the number of lines of
    the patch that are not hunk headers, so it always points inside the
    diff. *)
Theorem positions_bounded (patch : string) (m : gmap Z Z) (k v : Z) :
  getLineMapFromPatchString (Some patch) = Ok m →
  m !! k = Some v →
  v ≤ diffPosition_after (JsString.split LF patch) ∧
  diffPosition_after (JsString.split LF patch)
    ≤ Z.of_nat (length (JsString.split LF patch)).
Proof.
  intros H Hk. simpl in H. apply bind_Ok in H as (st & Hrun & Hm).
  injection Hm as <-. split; [|apply count_if_le].
  destruct recorded_below_initial as [Hb Hinj].
  destruct (recorded_below_reduce _ _ _ Hb Hinj Hrun) as [[_ Hv] _].
  destruct (counters_reduce _ _ Hrun) as [<- _]. apply Hv in Hk. lia.
Qed.

Lemma positions_bounded_witness :
  getLineMapFromPatchString (Some scenarioA) = Ok {[ 2 := 2 ]} ∧
  ({[ 2 := 2 ]} : gmap Z Z) !! 2 = Some 2 ∧
  2 ≤ diffPosition_after (JsString.split LF scenarioA).
Proof.
  assert (getLineMapFromPatchString (Some scenarioA) = Ok {[ 2 := 2 ]}) as H
    by (vm_compute; reflexivity).
  split; [exact H|]. split; [reflexivity|].
  exact (proj1 (positions_bounded scenarioA _ 2 2 H eq_refl)).
Defined.

Lemma split_nonempty (s : string) : JsString.split LF s ≠ [].
Proof.
  destruct s as [|c s]; simpl; [done|].
  destruct (Ascii.eqb c LF); [done|]. by destruct (JsString.split LF s).
Qed.

Lemma split_trailing_LF (s : string) :
  JsString.split LF (s +:+ String LF "") = JsString.split LF s ++ [""].
Proof.
  induction s as [|c s IH]; [reflexivity|].
  rewrite append_cons. simpl. rewrite IH.
  destruct (Ascii.eqb c LF); [done|].
  pose proof (split_nonempty s). by destruct (JsString.split LF s).
Qed.

(** X6. A line feed at the end of the patch changes nothing: the empty
    last line it produces advances the counters and records no entry, so
    the result, map or exception, is the same with and without it. *)
Theorem trailing_newline_ignored (patch : string) :
  getLineMapFromPatchString (Some (patch +:+ String LF ""))
  = getLineMapFromPatchString (Some patch).
Proof.
  simpl. rewrite split_trailing_LF, reduce_app.
  destruct (reduce (JsString.split LF patch) initialState) as [st|e]; [|done].
  reflexivity.
Qed.

Lemma lineMap_values_positive (patch : option string) (m : gmap Z Z) (k v : Z) :
  getLineMapFromPatchString patch = Ok m → m !! k = Some v → 1 ≤ v.
Proof.
  intros H Hk. destruct patch as [s|]; [|discriminate]. simpl in H.
  apply bind_Ok in H as (st & Hrun & Hm). injection Hm as <-.
  destruct recorded_below_initial as [Hb Hinj].
  destruct (recorded_below_reduce _ _ _ Hb Hinj Hrun) as [[_ Hv] _].
  apply Hv in Hk. lia.
Qed.

(** * Further properties of the pipeline *)

Section PipelineExtras.

Variable FILE_FILTER : string → bool.
Variable atob : string → string.
Variable eslint_messages : string → string → option (list Finding).
Variable github : ∀ R : Type, Request R → Reply R.

Local Abbreviation serve' := (serve FILE_FILTER atob eslint_messages github).
Local Abbreviation safe := (never_raises github).

(** ** When the process survives an event *)

Lemma deliver_alive (f : Proc → Proc) (p : Proc) :
  uncaught (deliver f p) = None ↔ uncaught p = None ∧ uncaught (f p) = None.
Proof.
  unfold deliver. destruct (uncaught p) eqn:Hp.
  - rewrite Hp. split; [done | by intros [? _]].
  - split; [done | by intros [_ ?]].
Qed.

Lemma run_alive (t : Task) :
  ∀ (pending : Proc → Proc) (Q : Prop) (p : Proc),
    (∀ q, uncaught (pending q) = None ↔ uncaught q = None ∧ Q) →
    (uncaught (run github t pending p) = None
     ↔ uncaught p = None ∧ safe t ∧ Q).
Proof.
  induction t as [|e|a k IH|R r k IH|R r callback IHc k IH];
    intros pending Q p Hpending; simpl.
  - rewrite Hpending. tauto.
  - split; [done | tauto].
  - rewrite (IH pending Q) by done. simpl. tauto.
  - rewrite (IH pending Q) by done. simpl. tauto.
  - rewrite (IH _ (Q ∧ safe (callback (github R r)))); [simpl; tauto|].
    intros q. rewrite deliver_alive.
    rewrite (IHc _ (fun x => x) True) by (intros x; tauto).
    rewrite Hpending. tauto.
Qed.

Lemma serve_alive (payload : option Payload) :
  uncaught (serve' payload boot) = None
  ↔ safe (handler FILE_FILTER atob eslint_messages payload).
Proof.
  unfold serve. rewrite (run_alive _ _ True); [simpl; tauto|]. intros q. tauto.
Qed.

Lemma safe_seq (t1 t2 : Task) : safe (seq t1 t2) ↔ safe t1 ∧ safe t2.
Proof. induction t1; simpl; tauto. Qed.

Lemma safe_for_each {A : Type} (f : A → Task) (xs : list A) :
  safe (for_each f xs) ↔ Forall (fun x => safe (f x)) xs.
Proof.
  induction xs as [|x xs IH]; simpl.
  - split; [constructor | done].
  - by rewrite safe_seq, Forall_cons, IH.
Qed.

Lemma safe_log_if (e : option Err) : safe (log_if e) ↔ True.
Proof. by destruct e. Qed.

Lemma safe_sendComments (r : LintResult) :
  safe (sendComments r) ↔ is_Some (r_messages r).
Proof.
  unfold sendComments. destruct (r_messages r) as [ms|]; simpl.
  - split; [eauto|]. intros _. apply safe_for_each, Forall_forall.
    intros f _. unfold sendSingleComment. by destruct (truthy _).
  - split; [done | by intros [? ?]].
Qed.

Lemma safe_lintAndSend (number : Z) (filename : string) (patch : option string)
    (content sha : string) :
  safe (lintAndSend eslint_messages number filename patch content sha)
  ↔ ∃ m ms, getLineMapFromPatchString patch = Ok m ∧
            eslint_messages content filename = Some ms.
Proof.
  unfold lintAndSend, lintContent.
  destruct (getLineMapFromPatchString patch) as [m|e]; simpl.
  - rewrite safe_sendComments. simpl. split.
    + intros [ms Hms]. eauto.
    + intros (m' & ms & _ & Hms). eauto.
  - split; [done|]. by intros (m & ms & ? & _).
Qed.

Lemma safe_downloadFile (pr : PullRequestRef) (c : Commit) (f : ChangedFile) :
  safe (downloadFile atob (lintAndSend eslint_messages) (Some pr) f (sha c))
  ↔ file_survives atob eslint_messages github c f.
Proof.
  unfold file_survives. simpl.
  destruct (github _ (repos_getContent (filename f) (sha c))) as [err dat]. simpl.
  destruct err as [e|]; simpl; [split; [done | tauto]|].
  destruct dat as [d|]; simpl.
  - rewrite safe_lintAndSend. split.
    + intros [(m & ms & ? & ?) _] _. eauto 6.
    + intros H. destruct (H eq_refl) as (d' & m & ms & [= <-] & ? & ?). eauto.
  - split; [tauto|]. intros H. by destruct (H eq_refl) as (d' & m & ms & ? & _).
Qed.

Lemma alive_iff_event_survives (pr : PullRequestRef) :
  uncaught (serve' (Some {| pull_request := Some pr |}) boot) = None
  ↔ event_survives FILE_FILTER atob eslint_messages github pr.
Proof.
  rewrite serve_alive. unfold event_survives. simpl.
  destruct (github _ (pullRequests_getCommits (number pr))) as [err dat]. simpl.
  rewrite safe_seq, safe_log_if.
  destruct dat as [cs|]; simpl.
  - rewrite safe_for_each.
    assert (Forall (fun c => safe (getFilesFromCommit
              (fun fs sha0 => for_each
                 (fun file => downloadFile atob (lintAndSend eslint_messages)
                                           (Some pr) file sha0)
                 (filterJavascriptFiles FILE_FILTER fs)) c)) cs
            ↔ Forall (commit_survives FILE_FILTER atob eslint_messages github) cs)
      as Hcs.
    { apply Forall_iff. intros c. unfold commit_survives. simpl.
      destruct (github _ (repos_getCommit (sha c))) as [errc datc]. simpl.
      destruct datc as [d|]; simpl.
      - rewrite safe_seq, safe_log_if, safe_for_each.
        setoid_rewrite (safe_downloadFile pr c). split.
        + intros [[_ H] _]. eauto.
        + intros (d' & [= <-] & H). done.
      - split; [tauto|]. by intros (d' & ? & _). }
    split.
    + intros [[_ H] _]. exists cs. split; [done|]. by apply Hcs.
    + intros (cs' & [= <-] & H). split; [|done]. split; [done|]. by apply Hcs.
  - split; [tauto|]. by intros (cs & ? & _).
Qed.

(** X7. When the number of the pull request is one the client
    accepts, so that the listing is requested and answered later, the
    process survives the event exactly when the commit listing comes
    with data, every commit listing comes with data, and every selected
    file either fails to download (which is logged) or is downloaded
    with content, has a patch the mapper accepts, and gets messages from
    ESLint.  Anything else ends the process with an uncaught
    exception. *)
Theorem survives_iff (pr : PullRequestRef) :
  accepted_number (number pr) →
  (uncaught (serve' (Some {| pull_request := Some pr |}) boot) = None
   ↔ event_survives FILE_FILTER atob eslint_messages github pr).
Proof. intros _. apply alive_iff_event_survives. Qed.

(** X8. A selected file that GitHub sends without a patch ends the
    process as soon as its content is downloaded: the mapper is called
    on [undefined] and nothing catches the [TypeError]. *)
Theorem absent_patch_is_fatal
    (pr : PullRequestRef) (cs : list Commit) (c : Commit) (d : CommitData)
    (f : ChangedFile) :
  data (github _ (pullRequests_getCommits (number pr))) = Some cs →
  c ∈ cs →
  data (github _ (repos_getCommit (sha c))) = Some d →
  f ∈ files d →
  FILE_FILTER (filename f) = true →
  error (github _ (repos_getContent (filename f) (sha c))) = None →
  patch f = None →
  uncaught (serve' (Some {| pull_request := Some pr |}) boot) ≠ None.
Proof.
  intros Hcs Hc Hd Hf Hff Herr Hpatch Halive.
  apply alive_iff_event_survives in Halive as (cs' & Hcs' & Hall).
  rewrite Hcs in Hcs'. injection Hcs' as <-.
  rewrite Forall_forall in Hall. destruct (Hall c Hc) as (d' & Hd' & Hfiles).
  rewrite Hd in Hd'. injection Hd' as <-.
  rewrite Forall_forall in Hfiles.
  assert (f ∈ filterJavascriptFiles FILE_FILTER (files d)) as Hsel.
  { apply list_elem_of_In, List.filter_In. by rewrite <- list_elem_of_In. }
  destruct (Hfiles f Hsel Herr) as (cd & m & ms & _ & Hm & _).
  rewrite Hpatch in Hm. discriminate.
Qed.

(** ** What a run adds to the trace *)

Lemma extends_id (P : Effect → Prop) : extends P (fun q => q).
Proof. intros q. exists []. by rewrite app_nil_r. Qed.

Lemma extends_compose (P : Effect → Prop) (f g : Proc → Proc) :
  extends P f → extends P g → extends P (fun q => g (f q)).
Proof.
  intros Hf Hg q. destruct (Hf q) as (s1 & E1 & H1).
  destruct (Hg (f q)) as (s2 & E2 & H2). exists (s1 ++ s2).
  rewrite E2, E1, <- app_assoc. split; [done|]. by apply Forall_app.
Qed.

Lemma extends_emit (P : Effect → Prop) (a : Effect) : P a → extends P (emit a).
Proof. intros Ha q. exists [a]. split; [done|]. by repeat constructor. Qed.

Lemma extends_crash (P : Effect → Prop) (e : exn) : extends P (crash e).
Proof. intros q. exists []. by rewrite app_nil_r. Qed.

Lemma extends_deliver (P : Effect → Prop) (f : Proc → Proc) :
  extends P f → extends P (deliver f).
Proof.
  intros Hf q. unfold deliver. destruct (uncaught q); [|apply Hf].
  exists []. by rewrite app_nil_r.
Qed.

Lemma run_extends (P : Effect → Prop) (t : Task) :
  ∀ pending, emits github P t → extends P pending →
             extends P (run github t pending).
Proof.
  induction t as [|e|a k IH|R r k IH|R r callback IHc k IH];
    intros pending Ht Hpending; simpl in *.
  - done.
  - apply extends_crash.
  - destruct Ht as [Ha Hk].
    apply (extends_compose P (emit a) (run github k pending));
      auto using extends_emit.
  - destruct Ht as [Ha Hk].
    apply (extends_compose P (emit (Api r)) (run github k pending));
      auto using extends_emit.
  - destruct Ht as (Ha & Hc & Hk).
    apply (extends_compose P (emit (Api r))
             (run github k (fun p' =>
                deliver (run github (callback (github R r)) (fun q => q))
                        (pending p'))));
      [by apply extends_emit|].
    apply IH; [done|].
    apply (extends_compose P pending
             (deliver (run github (callback (github R r)) (fun q => q))));
      [done|].
    apply extends_deliver, IHc; [done | apply extends_id].
Qed.

Lemma emits_seq (P : Effect → Prop) (t1 t2 : Task) :
  emits github P t1 → emits github P t2 → emits github P (seq t1 t2).
Proof. induction t1; simpl; tauto. Qed.

Lemma emits_for_each {A : Type} (P : Effect → Prop) (f : A → Task) (xs : list A) :
  (∀ x, x ∈ xs → emits github P (f x)) → emits github P (for_each f xs).
Proof.
  induction xs as [|x xs IH]; intros H; simpl; [done|].
  apply emits_seq; [apply H; left|]. apply IH. intros y Hy. apply H. by right.
Qed.

Section Emits.

Variable P : Effect → Prop.
Variable pr : PullRequestRef.
Hypothesis P_log : ∀ e, P (ConsoleLog e).
Hypothesis P_content :
  ∀ path ref, FILE_FILTER path = true → P (Api (repos_getContent path ref)).

Lemma emits_log_if (e : option Err) : emits github P (log_if e).
Proof. destruct e; simpl; auto. Qed.

Lemma emits_downloadFile (commit : Commit) (file : ChangedFile) :
  FILE_FILTER (filename file) = true →
  (∀ c, file_provenance atob eslint_messages github pr commit file c →
        P (Api (pullRequests_createComment c))) →
  emits github P
        (downloadFile atob (lintAndSend eslint_messages) (Some pr) file (sha commit)).
Proof.
  intros Hff Hprov. simpl. split; [by apply P_content|]. split; [|done].
  destruct (error (github _ (repos_getContent (filename file) (sha commit))))
    as [e|] eqn:Herr; [simpl; auto|].
  destruct (data (github _ (repos_getContent (filename file) (sha commit))))
    as [d|] eqn:Hdat; [|done].
  unfold lintAndSend, lintContent.
  destruct (getLineMapFromPatchString (patch file)) as [m|e] eqn:Hm; [|done].
  simpl. unfold sendComments. simpl.
  destruct (eslint_messages (atob (content d)) (filename file)) as [ms|] eqn:Hms;
    [|done].
  apply emits_for_each. intros finding Hin. unfold sendSingleComment.
  destruct (truthy (m !! line finding)) eqn:Ht; [|done].
  simpl. split; [|done]. apply Hprov. exists d, m, ms, finding.
  repeat split; try done. by destruct (m !! line finding).
Qed.

Lemma emits_files_callback (commit : Commit) :
  (∀ c, commit_provenance FILE_FILTER atob eslint_messages github pr commit c →
        P (Api (pullRequests_createComment c))) →
  emits github P
    (match data (github _ (repos_getCommit (sha commit))) with
     | None => Raise TypeError
     | Some d =>
         seq (log_if (error (github _ (repos_getCommit (sha commit)))))
             (for_each
                (fun file => downloadFile atob (lintAndSend eslint_messages)
                                          (Some pr) file (sha commit))
                (filterJavascriptFiles FILE_FILTER (files d)))
     end).
Proof.
  intros Hprov.
  destruct (data (github _ (repos_getCommit (sha commit)))) as [d|] eqn:Hd; [|done].
  apply emits_seq; [apply emits_log_if|]. apply emits_for_each.
  intros file Hin. apply list_elem_of_In, List.filter_In in Hin as [Hin Hff].
  apply emits_downloadFile; [done|]. intros c Hc. apply Hprov.
  exists d, file. by rewrite list_elem_of_In.
Qed.

Lemma emits_commits_callback :
  (∀ s, P (Api (repos_getCommit s))) →
  (∀ c, comment_provenance FILE_FILTER atob eslint_messages github
                           (Some {| pull_request := Some pr |}) c →
        P (Api (pullRequests_createComment c))) →
  emits github P
    (seq (log_if (error (github _ (pullRequests_getCommits (number pr)))))
         (match data (github _ (pullRequests_getCommits (number pr))) with
          | None => Raise TypeError
          | Some cs =>
              for_each
                (fun commit =>
                   getFilesFromCommit
                     (fun fs sha0 =>
                        for_each
                          (fun file => downloadFile atob (lintAndSend eslint_messages)
                                                    (Some pr) file sha0)
                          (filterJavascriptFiles FILE_FILTER fs))
                     commit)
                cs
          end)).
Proof.
  intros P_commit Hprov. apply emits_seq; [apply emits_log_if|].
  destruct (data (github _ (pullRequests_getCommits (number pr)))) as [cs|] eqn:Hcs;
    [|done].
  apply emits_for_each. intros commit Hin. simpl.
  split; [apply P_commit|]. split; [|done].
  apply emits_files_callback. intros c Hc. apply Hprov.
  exists pr, cs, commit. done.
Qed.

Lemma serve_trace :
  (∀ s, P (Api (repos_getCommit s))) →
  (∀ c, comment_provenance FILE_FILTER atob eslint_messages github
                           (Some {| pull_request := Some pr |}) c →
        P (Api (pullRequests_createComment c))) →
  ∃ suffix,
    trace (serve' (Some {| pull_request := Some pr |}) boot)
    = [Api (pullRequests_getCommits (number pr)); ResponseEnd] ++ suffix ∧
    Forall P suffix.
Proof.
  intros P_commit Hprov. unfold serve. simpl. unfold deliver. simpl.
  apply (run_extends P _ (fun q => q)
           (emits_commits_callback P_commit Hprov) (extends_id P)
           {| trace := [Api (pullRequests_getCommits (number pr)); ResponseEnd];
              uncaught := None |}).
Qed.

End Emits.

(** X9. Every comment the handler submits has a full pedigree: the
    body carries a pull request, GitHub listed the commit, the commit
    lists the file and the file passes the filter, its content was
    downloaded without error, and the comment is the one built for a
    message ESLint returned on a line that the LineMap of the patch
    holds.  In particular its path passes the filter, its position is at
    least 1 and its [commit_id] is its [sha]. *)
Theorem comments_have_provenance (payload : option Payload) (c : Comment) :
  Api (pullRequests_createComment c) ∈ trace (serve' payload boot) →
  comment_provenance FILE_FILTER atob eslint_messages github payload c ∧
  FILE_FILTER (cm_path c) = true ∧
  (∃ v, cm_position c = Some v ∧ 1 ≤ v) ∧
  cm_commit_id c = cm_sha c.
Proof.
  intros Hin.
  assert (comment_provenance FILE_FILTER atob eslint_messages github payload c)
    as Hprov.
  { destruct payload as [[[pr|]]|].
    - destruct (serve_trace
                  (fun e => ∀ c, comment_of e = Some c →
                     comment_provenance FILE_FILTER atob eslint_messages github
                       (Some {| pull_request := Some pr |}) c) pr)
        as (suffix & Htrace & Hall); try (intros; discriminate).
      { intros c' Hc' c'' [= <-]. done. }
      rewrite Htrace in Hin. rewrite Forall_forall in Hall.
      apply elem_of_app in Hin as [Hin|Hin].
      + apply elem_of_cons in Hin as [Hin|Hin];
          [|apply list_elem_of_singleton in Hin];
          apply (f_equal comment_of) in Hin; discriminate.
      + by apply (Hall _ Hin).
    - apply list_elem_of_singleton in Hin.
      apply (f_equal comment_of) in Hin. discriminate.
    - apply list_elem_of_singleton in Hin.
      apply (f_equal comment_of) in Hin. discriminate. }
  split; [done|].
  destruct Hprov as (pr & cs & commit & _ & _ & _ & d & file & _ & _ & Hff
                     & cd & m & ms & finding & _ & _ & Hm & _ & _ & [v Hv] & ->).
  simpl. split; [done|]. split; [|done].
  exists v. split; [done|]. eauto using lineMap_values_positive.
Qed.

(** X10. For a body without a pull request, or with one whose number
    the client accepts, and whatever GitHub answers, the response is
    ended exactly once: right after the commit listing is requested when
    the body carries a pull request, first thing otherwise, and before
    any reply is handled. *)
Theorem response_ended_once (payload : option Payload) :
  (∀ pr, payload ≫= pull_request = Some pr → accepted_number (number pr)) →
  ∃ rest,
    trace (serve' payload boot)
    = match payload ≫= pull_request with
      | Some pr => [Api (pullRequests_getCommits (number pr))]
      | None => []
      end ++ ResponseEnd :: rest ∧
    Forall (fun e => e ≠ ResponseEnd) rest.
Proof.
  intros _. destruct payload as [[[pr|]]|]; simpl.
  - apply (serve_trace (fun e => e ≠ ResponseEnd) pr); intros; discriminate.
  - by exists [].
  - by exists [].
Qed.

Lemma run_listings_trace (P : Effect → Prop)
    (callback : list ChangedFile → string → Task) (cs : list Commit) :
  ∀ pending p,
    extends P pending →
    (∀ c, c ∈ cs →
          emits github P
            (match data (github _ (repos_getCommit (sha c))) with
             | None => Raise TypeError
             | Some d =>
                 seq (log_if (error (github _ (repos_getCommit (sha c)))))
                     (callback (files d) (sha c))
             end)) →
    ∃ rest,
      trace (run github (for_each (getFilesFromCommit callback) cs) pending p)
      = trace p ++ map (fun c => Api (repos_getCommit (sha c))) cs ++ rest ∧
      Forall P rest.
Proof.
  induction cs as [|c cs IH]; intros pending p Hpending Hcs; simpl.
  - apply Hpending.
  - destruct (IH (fun p' =>
                    deliver (run github
                               (match data (github _ (repos_getCommit (sha c))) with
                                | None => Raise TypeError
                                | Some d =>
                                    seq (log_if (error (github _ (repos_getCommit (sha c)))))
                                        (callback (files d) (sha c))
                                end) (fun q => q)) (pending p'))
                 (emit (Api (repos_getCommit (sha c))) p))
      as (rest & Htrace & Hrest).
    + apply (extends_compose P pending); [done|].
      apply extends_deliver, run_extends; [|apply extends_id].
      apply Hcs. by left.
    + intros c' Hc'. apply Hcs. by right.
    + exists rest. split; [|done]. rewrite Htrace. simpl.
      by rewrite <- app_assoc.
Qed.

(** X11. When the commit listing comes with data, the file listing of
    every commit is requested, in the order of the commits, right after
    the response is ended (and after the log entry, if the listing also
    carried an error), before any of these listings is handled; no
    listing is requested later on. *)
Theorem listings_requested_first (pr : PullRequestRef) (cs : list Commit) :
  data (github _ (pullRequests_getCommits (number pr))) = Some cs →
  ∃ rest,
    trace (serve' (Some {| pull_request := Some pr |}) boot)
    = [Api (pullRequests_getCommits (number pr)); ResponseEnd]
        ++ match error (github _ (pullRequests_getCommits (number pr))) with
           | Some e => [ConsoleLog e]
           | None => []
           end
        ++ map (fun c => Api (repos_getCommit (sha c))) cs ++ rest ∧
    Forall (fun e => is_listing e = false) rest.
Proof.
  intros Hcs. unfold serve. simpl. unfold deliver. simpl. rewrite Hcs.
  destruct (error (github _ (pullRequests_getCommits (number pr)))) as [e|]; simpl.
  - edestruct (run_listings_trace (fun e => is_listing e = false)) as (rest & -> & Hrest);
      [apply extends_id | | exists rest; split; [reflexivity | exact Hrest]].
    intros c _. by apply (emits_files_callback _ pr).
  - edestruct (run_listings_trace (fun e => is_listing e = false)) as (rest & -> & Hrest);
      [apply extends_id | | exists rest; split; [reflexivity | exact Hrest]].
    intros c _. by apply (emits_files_callback _ pr).
Qed.

(** X13. The handler downloads selected files only: every content
    request it makes is for a path that passes the filter. *)
Theorem downloads_only_selected (payload : option Payload) (path ref : string) :
  Api (repos_getContent path ref) ∈ trace (serve' payload boot) →
  FILE_FILTER path = true.
Proof.
  intros Hin.
  assert (Forall (fun e => ∀ q, download_of e = Some q → FILE_FILTER q = true)
                 (trace (serve' payload boot))) as Hall.
  { destruct payload as [[[pr|]]|].
    - destruct (serve_trace
                  (fun e => ∀ q, download_of e = Some q → FILE_FILTER q = true) pr)
        as (suffix & -> & Hall); try (intros; discriminate).
      { intros p0 r0 Hff q [= <-]. done. }
      apply Forall_app. split; [|done].
      repeat constructor; intros; discriminate.
    - repeat constructor; intros; discriminate.
    - repeat constructor; intros; discriminate. }
  rewrite Forall_forall in Hall. by apply (Hall _ Hin path).
Qed.

(** X14. The filter keeps every file whose name matches: an entry is
    in the result exactly when it is in the input and matches; a list
    of matching files comes back unchanged, and filtering twice is
    filtering once. *)
Theorem filterJavascriptFiles_complete (fs : list ChangedFile) :
  (∀ f, f ∈ filterJavascriptFiles FILE_FILTER fs
        ↔ f ∈ fs ∧ FILE_FILTER (filename f) = true) ∧
  (Forall (fun f => FILE_FILTER (filename f) = true) fs →
   filterJavascriptFiles FILE_FILTER fs = fs) ∧
  filterJavascriptFiles FILE_FILTER (filterJavascriptFiles FILE_FILTER fs)
  = filterJavascriptFiles FILE_FILTER fs.
Proof.
  assert (∀ l, Forall (fun f => FILE_FILTER (filename f) = true) l →
               filterJavascriptFiles FILE_FILTER l = l) as Hid.
  { intros l Hl. unfold filterJavascriptFiles.
    induction Hl as [|f l Hf _ IH]; simpl; [done|]. by rewrite Hf, IH. }
  split; [|split; [apply Hid|]].
  - intros f. unfold filterJavascriptFiles.
    by rewrite !list_elem_of_In, List.filter_In.
  - apply Hid, Forall_forall. intros f Hf.
    apply list_elem_of_In in Hf. by apply List.filter_In in Hf as [_ ?].
Qed.

(** ** Linting one file *)

Lemma run_sendComments (number : Z) (filename sha : string) (m : gmap Z Z)
    (ms : list Finding) (pending : Proc → Proc) :
  (∀ k v, m !! k = Some v → 1 ≤ v) →
  ∀ p,
    run github (for_each (fun f => sendSingleComment number filename m f sha) ms)
        pending p
    = pending
        {| trace := trace p
             ++ map (fun f => Api (pullRequests_createComment
                                     (comment_for number filename sha m f)))
                    (List.filter (fun f => bool_decide (is_Some (m !! line f))) ms);
           uncaught := uncaught p |}.
Proof.
  intros Hpos. induction ms as [|f ms IH]; intros p; simpl.
  - rewrite app_nil_r. by destruct p.
  - unfold sendSingleComment, comment_for.
    destruct (m !! line f) as [v|] eqn:Hv; simpl.
    + apply Hpos in Hv as Hge.
      assert ((v =? 0) = false) as -> by (apply Z.eqb_neq; lia). simpl.
      rewrite IH. simpl. unfold comment_for. rewrite Hv. by rewrite <- app_assoc.
    + apply IH.
Qed.

(** X12. Once the patch is mapped and ESLint has returned its messages,
    linting a file submits one comment for each message whose line is a
    key of the LineMap, in the order of the messages and at the position
    the map gives, drops the other messages, and does nothing else. *)
Theorem lintAndSend_comments
    (number : Z) (filename : string) (patch : option string)
    (content sha : string) (m : gmap Z Z) (ms : list Finding)
    (pending : Proc → Proc) (p : Proc) :
  getLineMapFromPatchString patch = Ok m →
  eslint_messages content filename = Some ms →
  run github (lintAndSend eslint_messages number filename patch content sha)
      pending p
  = pending
      {| trace := trace p
           ++ map (fun f => Api (pullRequests_createComment
                                   (comment_for number filename sha m f)))
                  (List.filter (fun f => bool_decide (is_Some (m !! line f))) ms);
         uncaught := uncaught p |}.
Proof.
  intros Hm Hms. unfold lintAndSend, lintContent. rewrite Hm. simpl.
  unfold sendComments. simpl. rewrite Hms.
  apply run_sendComments. eauto using lineMap_values_positive.
Qed.

End PipelineExtras.

(** ** The extras on concrete events *)

Lemma absent_patch_is_fatal_witness :
  data (Renamed.github _ (pullRequests_getCommits 7)) = Some [World.commitA] ∧
  data (Renamed.github _ (repos_getCommit "aaa")) = Some {| files := [Renamed.file] |} ∧
  World.FILE_FILTER (filename Renamed.file) = true ∧
  error (Renamed.github _ (repos_getContent "b.js" "aaa")) = None ∧
  patch Renamed.file = None ∧
  uncaught (serve World.FILE_FILTER World.atob World.eslint_messages Renamed.github
                  (Some World.payload) boot) ≠ None.
Proof.
  repeat (split; [reflexivity|]).
  apply (absent_patch_is_fatal World.FILE_FILTER World.atob World.eslint_messages
           Renamed.github {| number := 7 |} [World.commitA] World.commitA
           {| files := [Renamed.file] |} Renamed.file);
    try reflexivity; apply list_elem_of_here.
Defined.

Lemma survives_iff_witness :
  accepted_number 7 ∧
  (uncaught (World.serve_in (World.healthy [World.commitA; World.commitB])) = None
   ↔ event_survives World.FILE_FILTER World.atob World.eslint_messages
       (World.healthy [World.commitA; World.commitB]) {| number := 7 |}).
Proof.
  assert (accepted_number 7) as H by (split; reflexivity).
  split; [exact H|].
  exact (survives_iff World.FILE_FILTER World.atob World.eslint_messages
           (World.healthy [World.commitA; World.commitB]) {| number := 7 |} H).
Defined.

Lemma response_ended_once_witness :
  (∀ pr, Some World.payload ≫= pull_request = Some pr → accepted_number (number pr)) ∧
  ∃ rest,
    trace (World.serve_in (World.healthy [World.commitA; World.commitB]))
    = [Api (pullRequests_getCommits 7)] ++ ResponseEnd :: rest ∧
    Forall (fun e => e ≠ ResponseEnd) rest.
Proof.
  assert (∀ pr, Some World.payload ≫= pull_request = Some pr →
                accepted_number (number pr)) as H.
  { intros pr [= <-]. split; reflexivity. }
  split; [exact H|].
  exact (response_ended_once World.FILE_FILTER World.atob World.eslint_messages
           (World.healthy [World.commitA; World.commitB]) (Some World.payload) H).
Defined.

Lemma comments_have_provenance_witness :
  Api (pullRequests_createComment (World.commentOn World.commitA))
    ∈ trace (World.serve_in (World.healthy [World.commitA; World.commitB])) ∧
  comment_provenance World.FILE_FILTER World.atob World.eslint_messages
    (World.healthy [World.commitA; World.commitB]) (Some World.payload)
    (World.commentOn World.commitA).
Proof.
  assert (Api (pullRequests_createComment (World.commentOn World.commitA))
            ∈ trace (World.serve_in (World.healthy [World.commitA; World.commitB])))
    as Hin.
  { rewrite healthy_event. simpl. do 5 apply list_elem_of_further.
    apply list_elem_of_here. }
  split; [exact Hin|].
  exact (proj1 (comments_have_provenance World.FILE_FILTER World.atob
                  World.eslint_messages (World.healthy [World.commitA; World.commitB])
                  (Some World.payload) _ Hin)).
Defined.

Lemma listings_requested_first_witness :
  data (World.healthy [World.commitA; World.commitB] _ (pullRequests_getCommits 7))
    = Some [World.commitA; World.commitB] ∧
  ∃ rest,
    trace (World.serve_in (World.healthy [World.commitA; World.commitB]))
    = [Api (pullRequests_getCommits 7); ResponseEnd] ++ []
        ++ [Api (repos_getCommit "aaa"); Api (repos_getCommit "bbb")] ++ rest ∧
    Forall (fun e => is_listing e = false) rest.
Proof.
  split; [reflexivity|].
  apply (listings_requested_first World.FILE_FILTER World.atob World.eslint_messages
           (World.healthy [World.commitA; World.commitB]) {| number := 7 |}
           [World.commitA; World.commitB]).
  reflexivity.
Defined.

Lemma downloads_only_selected_witness :
  Api (repos_getContent "b.js" "aaa")
    ∈ trace (World.serve_in (World.healthy [World.commitA; World.commitB])) ∧
  World.FILE_FILTER "b.js" = true.
Proof.
  assert (Api (repos_getContent "b.js" "aaa")
            ∈ trace (World.serve_in (World.healthy [World.commitA; World.commitB])))
    as Hin.
  { rewrite healthy_event. simpl. do 4 apply list_elem_of_further.
    apply list_elem_of_here. }
  split; [exact Hin|].
  exact (downloads_only_selected World.FILE_FILTER World.atob World.eslint_messages
           (World.healthy [World.commitA; World.commitB]) (Some World.payload)
           "b.js" "aaa" Hin).
Defined.

Lemma lintAndSend_comments_witness :
  getLineMapFromPatchString (Some scenarioB) = Ok {[ 1 := 2 ]} ∧
  World.eslint_messages "x" "b.js" = Some [World.semi] ∧
  run (World.healthy [])
      (lintAndSend World.eslint_messages 7 "b.js" (Some scenarioB) "x" "aaa")
      (fun q => q) boot
  = {| trace := [Api (pullRequests_createComment (World.commentOn World.commitA))];
       uncaught := None |}.
Proof.
  assert (getLineMapFromPatchString (Some scenarioB) = Ok {[ 1 := 2 ]}) as H
    by (vm_compute; reflexivity).
  split; [exact H|]. split; [reflexivity|].
  rewrite (lintAndSend_comments World.eslint_messages (World.healthy []) 7 "b.js"
             (Some scenarioB) "x" "aaa" {[ 1 := 2 ]} [World.semi] (fun q => q) boot
             H eq_refl).
  reflexivity.
Defined.
